(** * Feedback-Analyser: the text-matching core of [feedback_classifier.py]

    A shallow embedding of the classifier (tokenizer, char-repetition
    normalizer, abusive prefix trie, obfuscation patterns, sentiment scorer,
    orchestrator) and the properties its specification states about it.

    Python strings are sequences of Unicode code points; they are modelled
    as lists of code points ([N]), so that the emoji tokens of the tokenizer
    are single characters exactly as in the source. *)

From Stdlib Require Import NArith List Ascii String Lia.
From Stdlib Require Import Floats.PrimFloat.
From stdpp Require Import gmap list.

Set Default Proof Using "Type".
#[local] Set Warnings "-register-all,-inexact-float".

(** ** Strings *)

Definition char := N.
Definition str := list char.

(** [u "abc"] is the Python literal ["abc"] (ASCII literals only). *)
Definition u (s : string) : str := map N_of_ascii (list_ascii_of_string s).

(** ** Char-repetition normalizer ([normalize_repeated_chars]) *)

(** The three loop variables of the source. *)
Record norm_state := mkNormState {
  result_chars : list char;
  prev_char : option char;
  repeat_count : nat
}.

(** One iteration of [for char in word]. *)
Definition norm_step (st : norm_state) (c : char) : norm_state :=
  let st1 :=
    if decide (Some c = prev_char st)
    then mkNormState (result_chars st) (prev_char st) (S (repeat_count st))
    else mkNormState (result_chars st) (Some c) 1 in
  if repeat_count st1 <=? 2
  then mkNormState (result_chars st1 ++ [c]) (prev_char st1) (repeat_count st1)
  else st1.

Definition normalize_repeated_chars (word : str) : str :=
  match word with
  | [] => word
  | _ => result_chars (fold_left norm_step word (mkNormState [] None 0))
  end.

(** The consecutive-repeat count of [c] when it is read after the characters
    [seen] (most recent first): one more than the number of copies of [c]
    that immediately precede it. *)
Fixpoint run_before (c : char) (seen : list char) : nat :=
  match seen with
  | x :: seen' => if decide (x = c) then S (run_before c seen') else 0
  | [] => 0
  end.

Definition consecutive_repeat (c : char) (seen : list char) : nat :=
  S (run_before c seen).
#[global] Arguments consecutive_repeat : simpl never.

(** The characters of [rest] whose consecutive-repeat count is at most 2,
    in order; [seen] holds the characters already scanned, most recent
    first. *)
Fixpoint keep_upto_two (seen rest : list char) : list char :=
  match rest with
  | [] => []
  | c :: rest' =>
      (if consecutive_repeat c seen <=? 2 then [c] else [])
      ++ keep_upto_two (c :: seen) rest'
  end.

(** No character occurs three times in a row. *)
Fixpoint no_triple (l : list char) : bool :=
  match l with
  | [] => true
  | a :: t =>
      match t with
      | b :: c :: _ => negb ((a =? b)%N && (b =? c)%N) && no_triple t
      | _ => true
      end
  end.

(** The loop state after scanning [seen]: the previous character is the
    last one scanned and the counter is its consecutive-repeat count. *)
Definition norm_inv (seen : list char) (st : norm_state) : Prop :=
  match seen with
  | [] => prev_char st = None ∧ repeat_count st = 0
  | p :: seen' =>
      prev_char st = Some p ∧ repeat_count st = consecutive_repeat p seen'
  end.

(** ** Unicode tables

    [str.lower], [str.strip] and the [re] module consult CPython's Unicode
    database. On ASCII code points their behaviour is written out below; on
    other code points it is left to these tables, over which every result
    of this file is universally quantified. *)

Record unicode_tables := mkUnicodeTables {
  (** [text.lower()] for a text with some non-ASCII character *)
  uni_lower : str → str;
  (** is this non-ASCII character whitespace for [str.strip] *)
  uni_isspace : char → bool;
  (** is this non-ASCII character a word character ([\w]) *)
  uni_isword : char → bool;
  (** does the first character match the second as a pattern literal under
      [re.IGNORECASE], when one of them is not ASCII *)
  uni_ci_eq : char → char → bool
}.

(** Tables under which non-ASCII characters are caseless word characters
    that are not whitespace; used to run the model on ASCII inputs. *)
Definition caseless_tables : unicode_tables :=
  mkUnicodeTables (λ s, s) (λ _, false) (λ _, true) N.eqb.

Definition is_ascii (c : char) : bool := (c <? 128)%N.

Definition in_range (lo hi c : char) : bool := ((lo <=? c) && (c <=? hi))%N.

Definition ascii_lower (c : char) : char :=
  if in_range 65%N 90%N c then (c + 32)%N else c.

Definition ascii_isspace (c : char) : bool :=
  in_range 9%N 13%N c || in_range 28%N 32%N c.

Definition ascii_isword (c : char) : bool :=
  in_range 97%N 122%N c || in_range 65%N 90%N c || in_range 48%N 57%N c || (c =? 95)%N.

(** Membership in a Python list or set of strings, as a boolean. *)
Definition char_in (c : char) (l : list char) : bool := bool_decide (c ∈ l).
Definition str_in_list (x : str) (l : list str) : bool := bool_decide (x ∈ l).
Definition str_in_set (x : str) (s : gset str) : bool := bool_decide (x ∈ s).

(** ** Abusive prefix trie ([TrieNode], [Trie]) *)

Inductive TrieNode := mkTrieNode {
  children : gmap char TrieNode;
  is_end_of_word : bool
}.

Record Trie := mkTrie { root : TrieNode }.

(** [TrieNode()] and [Trie()]. *)
Definition new_node : TrieNode := mkTrieNode ∅ false.
Definition new_trie : Trie := mkTrie new_node.

(** The walk of [Trie.insert] from [node]: the child for each character is
    created when absent, and the node reached last is marked. *)
Fixpoint insert_from (node : TrieNode) (word : str) : TrieNode :=
  match word with
  | [] => mkTrieNode (children node) true
  | c :: word' =>
      let child := default new_node (children node !! c) in
      mkTrieNode (<[c := insert_from child word']> (children node))
                 (is_end_of_word node)
  end.

Definition insert (t : Trie) (word : str) : Trie :=
  mkTrie (insert_from (root t) word).

(** The walk of [Trie.search_prefix] from [node]. *)
Fixpoint search_prefix_from (node : TrieNode) (word : str) : bool :=
  match word with
  | [] => false
  | c :: word' =>
      match children node !! c with
      | None => false
      | Some child =>
          if is_end_of_word child then true else search_prefix_from child word'
      end
  end.

Definition search_prefix (t : Trie) (word : str) : bool :=
  search_prefix_from (root t) word.

(** ** Word lists of the module *)

(** The list literal as Python reads it: there is no comma between
    ["bhenchod"] and ["bhosdike"], so the two adjacent literals are one
    string. *)
Definition abusive_words : list str :=
  map u [ "chut"; "chu"; "chodu"; "madar"; "behenchod";
          ("bhenchod" ++ "bhosdike")%string;
          "randi"; "harami"; "gand"; "lodu"; "laude"; "lavde"; "lauda";
          "loda"; "lund";
          "tatti"; "gaand"; "bhadwe"; "bhadwa"; "chinal"; "kutta"; "kuttiya";
          "kamina"; "haram"; "chud"; "lendi"; "saala"; "saale";
          "fuck"; "motherfucker"; "bullshit"; "bastard";
          "slut"; "whore"; "asshole"; "dick"; "pussy"; "bitch"; "cock"; "cunt";
          "dildo"; "jerk"; "wanker"; "retard";
          "fck"; "fuk"; "fk"; "phuck"; "fuq";
          "mc"; "bc"; "bsdk"; "chod"; "ch0d";
          "kutti"; "kutte"; "rndi" ]%string.

Definition safe_words : list str :=
  map u [ "gandhiji"; "gandagi"; "gandhak" ]%string.

(** [trie = Trie()] followed by [for word in abusive_words: trie.insert(word)]. *)
Definition build_trie (words : list str) : Trie := fold_left insert words new_trie.
Definition trie : Trie := build_trie abusive_words.

(** ** Obfuscation patterns *)

(** The fragment of [re] syntax the generated patterns use. A character set
    lists its literal members and says whether it contains the class [\W]. *)
Inductive atom :=
| Literal (c : char)
| CharSet (non_word : bool) (members : list char).

Inductive regex :=
| Void
| Eps
| Atom (a : atom)
| Cat (r1 r2 : regex)
| Alt (r1 r2 : regex)
| Star (r : regex).

(** [(?:r)+] and [(?:r)?]. *)
Definition Plus (r : regex) : regex := Cat r (Star r).
Definition Opt (r : regex) : regex := Alt r Eps.

(** [OBFUSCATION = r"[*#x@\$%&^!]+"]. *)
Definition OBFUSCATION_SET : atom := CharSet false (u "*#x@$%&^!").
Definition OBFUSCATION : regex := Plus (Atom OBFUSCATION_SET).

(** [[\W_]]. *)
Definition FILLER_SET : atom := CharSet true (u "_").

(** [word[1:-1]]. *)
Definition slice_1_m1 (word : str) : str := removelast (tail word).

(** [middle_pattern += f"(?:{re.escape(ch)}|{OBFUSCATION})+"]. *)
Definition middle_piece (ch : char) : regex :=
  Plus (Alt (Atom (Literal ch)) OBFUSCATION).

Definition middle_step (middle_pattern : regex) (ch : char) : regex :=
  Cat middle_pattern (middle_piece ch).

(** [create_obfuscation_regex]; [None] is the [IndexError] that [word[0]]
    raises on the empty word. The anchors [^] and [$] add nothing to a
    pattern used with [fullmatch] and are not represented. *)
Definition create_obfuscation_regex (word : str) : option regex :=
  match word with
  | [] => None
  | first :: _ =>
      let last := List.last word first in
      let middle := slice_1_m1 word in
      let middle_pattern := fold_left middle_step middle Eps in
      Some (Cat (Atom (Literal first))
             (Cat (Opt (Cat (Star (Atom FILLER_SET)) middle_pattern))
               (Cat (Star (Atom FILLER_SET)) (Atom (Literal last)))))
  end.

(** [patterns = [create_obfuscation_regex(w) for w in abusive_words]]; every
    entry of the list is non-empty, so no call raises
    (lemma [patterns_compiled]). *)
Definition patterns : list regex :=
  default [] (mapM create_obfuscation_regex abusive_words).

(** ** Results *)

Record fuzzy_match := mkFuzzyMatch { fm_word : str; fm_score : float }.

(** The per-token dictionary [token_info]. *)
Record token_info := mkTokenInfo {
  ti_token : str;
  ti_normalized : str;
  exact_positive : bool;
  exact_negative : bool;
  fuzzy_positive_matches : list fuzzy_match;
  fuzzy_negative_matches : list fuzzy_match
}.

(** The dictionary [analyze_sentiment] returns in debug mode. *)
Record sentiment_report := mkReport {
  label : str;
  positive_count : nat;
  negative_count : nat;
  token_details : list token_info
}.

(** A value of the ["sentiment"] field: a string or the debug dictionary. *)
Inductive sentiment_value :=
| SentStr (s : str)
| SentDict (r : sentiment_report).

(** The dictionary [is_abusive] returns; an absent key is [None]. *)
Record result := mkResult {
  classification : str;
  sentiment : sentiment_value;
  tokens : option (list str);
  details : option sentiment_report
}.

Definition MIDDLE_FINGER : str := [128405%N].

(** A similarity measure under which nothing resembles anything; used to
    run the model where the word sets are empty and no score is computed. *)
Definition no_similarity : str → str → float := λ _ _, 0%float.

Section Classifier.

(** CPython's Unicode database, the three word files read at import time,
    and [difflib.SequenceMatcher(None, a, b).ratio()]. *)
Variable U : unicode_tables.
Variables stopwords positive_words negative_words : gset str.
Variable ratio : str → str → float.

(** *** Built-in string operations *)

Definition lower (text : str) : str :=
  if forallb is_ascii text then map ascii_lower text else uni_lower U text.

Definition isspace (c : char) : bool :=
  if is_ascii c then ascii_isspace c else uni_isspace U c.

Fixpoint lstrip (text : str) : str :=
  match text with
  | c :: text' => if isspace c then lstrip text' else text
  | [] => []
  end.

Definition strip (text : str) : str := reverse (lstrip (reverse (lstrip text))).

(** *** Tokenizer ([preprocess]) *)

(** [[a-z0-9@#\*\$\%\&\^\_]]. *)
Definition is_token_char (c : char) : bool :=
  in_range 97%N 122%N c || in_range 48%N 57%N c || char_in c (u "@#*$%&^_").

(** [[\U0001F600-\U0001F64F]] or [[\U0001F300-\U0001F5FF]]. *)
Definition is_emoji (c : char) : bool :=
  in_range 128512%N 128591%N c || in_range 127744%N 128511%N c.

Definition flush (run : str) : list str :=
  match run with [] => [] | _ => [run] end.

(** [re.findall] with the tokenizer's pattern, scanning left to right:
    [run] is the maximal run of word-and-censor characters being read; an
    emoji outside a run is a token of its own; any other character only
    ends the run. *)
Fixpoint findall_tokens (run : str) (text : str) : list str :=
  match text with
  | [] => flush run
  | c :: text' =>
      if is_token_char c then findall_tokens (run ++ [c]) text'
      else flush run ++ (if is_emoji c then [[c]] else [])
                     ++ findall_tokens [] text'
  end.

Definition keep_token (t : str) : bool :=
  negb (str_in_set t stopwords) || str_in_set t positive_words
  || str_in_set t negative_words.

Definition preprocess (text : str) : list str :=
  let text := strip (lower text) in
  let tokens := findall_tokens [] text in
  filter (λ t, keep_token t = true) tokens.

(** *** Matching a pattern compiled with [re.IGNORECASE] *)

Definition is_word (c : char) : bool :=
  if is_ascii c then ascii_isword c else uni_isword U c.

Definition ci_eq (c p : char) : bool :=
  if is_ascii c && is_ascii p then (ascii_lower c =? ascii_lower p)%N
  else uni_ci_eq U c p.

Definition atom_match (a : atom) (c : char) : bool :=
  match a with
  | Literal p => ci_eq c p
  | CharSet non_word members =>
      (non_word && negb (is_word c)) || existsb (ci_eq c) members
  end.

Fixpoint nullable (r : regex) : bool :=
  match r with
  | Void => false
  | Eps => true
  | Atom _ => false
  | Cat r1 r2 => nullable r1 && nullable r2
  | Alt r1 r2 => nullable r1 || nullable r2
  | Star _ => true
  end.

(** The pattern matching what [r] matches after a leading [c]. *)
Fixpoint deriv (c : char) (r : regex) : regex :=
  match r with
  | Void => Void
  | Eps => Void
  | Atom a => if atom_match a c then Eps else Void
  | Cat r1 r2 =>
      if nullable r1 then Alt (Cat (deriv c r1) r2) (deriv c r2)
      else Cat (deriv c r1) r2
  | Alt r1 r2 => Alt (deriv c r1) (deriv c r2)
  | Star r1 => Cat (deriv c r1) (Star r1)
  end.

(** [pattern.fullmatch(token)] as a truth value. *)
Fixpoint fullmatch (pattern : regex) (token : str) : bool :=
  match token with
  | [] => nullable pattern
  | c :: token' => fullmatch (deriv c pattern) token'
  end.

(** *** Sentiment scorer ([analyze_sentiment]) *)

(** The matches a [for w in words] loop appends: the words whose similarity
    to [norm] is at least 0.8, with their scores. *)
Definition fuzzy_matches (norm : str) (words : gset str) : list fuzzy_match :=
  omap (λ w, let sim := ratio norm w in
             if (0.8 <=? sim)%float then Some (mkFuzzyMatch w sim) else None)
       (elements words).

(** The loop variables [positive_count], [negative_count], [details]. *)
Record sentiment_state := mkSentState {
  st_positive : nat;
  st_negative : nat;
  st_details : list token_info
}.

(** One iteration of [for token in tokens]. *)
Definition sentiment_step (st : sentiment_state) (token : str) : sentiment_state :=
  let norm := normalize_repeated_chars (lower token) in
  if str_in_set norm positive_words then
    mkSentState (S (st_positive st)) (st_negative st)
      (st_details st ++ [mkTokenInfo token norm true false [] []])
  else if str_in_set norm negative_words then
    mkSentState (st_positive st) (S (st_negative st))
      (st_details st ++ [mkTokenInfo token norm false true [] []])
  else
    let fp := fuzzy_matches norm positive_words in
    let fn := fuzzy_matches norm negative_words in
    mkSentState
      (match fp with [] => st_positive st | _ => S (st_positive st) end)
      (match fn with [] => st_negative st | _ => S (st_negative st) end)
      (st_details st ++ [mkTokenInfo token norm false false fp fn]).

Definition choose_label (positive_count negative_count : nat) : str :=
  if negative_count <? positive_count then u "Positive"
  else if positive_count <? negative_count then u "Negative"
  else u "Neutral".

Definition analyze_sentiment (tokens : list str) (debug : bool) : sentiment_value :=
  let st := fold_left sentiment_step tokens (mkSentState 0 0 []) in
  let label := choose_label (st_positive st) (st_negative st) in
  if debug then
    SentDict (mkReport label (st_positive st) (st_negative st) (st_details st))
  else SentStr label.

(** *** Classifier ([is_abusive]) *)

(** The loop [for token in tokens] of [is_abusive]: [true] when it returns
    the abusive verdict, [false] when it runs to its end. [all_tokens] is
    the whole list, which the emoji test reads at every iteration. *)
Fixpoint abusive_loop (all_tokens rest : list str) : bool :=
  match rest with
  | [] => false
  | token :: rest' =>
      if str_in_list token safe_words then abusive_loop all_tokens rest'
      else if search_prefix trie token then true
      else if existsb (λ pattern, fullmatch pattern token) patterns then true
      else if str_in_list MIDDLE_FINGER all_tokens then true
      else abusive_loop all_tokens rest'
  end.

Definition is_abusive_tokens (tokens : list str) (debug : bool) : result :=
  let result := mkResult (u "") (SentStr (u "")) None None in
  match tokens with
  | [] => mkResult (u "Please give meaningful feedback") (sentiment result) None None
  | _ =>
      if abusive_loop tokens tokens
      then mkResult (u "Abusive") (sentiment result) None None
      else
        let sentiment_analysis := analyze_sentiment tokens debug in
        if debug then
          mkResult (u "Clean") sentiment_analysis (Some tokens)
            (match sentiment_analysis with
             | SentDict d => Some d
             | SentStr _ => None
             end)
        else mkResult (u "Clean") sentiment_analysis None None
  end.

Definition is_abusive (text : str) (debug : bool) : result :=
  is_abusive_tokens (preprocess text) debug.

(** *** Shapes of tokens *)

(** A character that the tokenizer's pattern matches nowhere. *)
Definition is_separator (c : char) : bool :=
  negb (is_token_char c) && negb (is_emoji c).

(** A word token (a non-empty run of word-and-censor characters) or an
    emoji token (one emoji character). *)
Definition token_shape (t : str) : Prop :=
  (t ≠ [] ∧ Forall (λ c, is_token_char c = true) t) ∨
  (∃ c, t = [c] ∧ is_emoji c = true).

(** *** Fuzzy membership ([is_similar_to_any]) *)

(** The loop [for dict_word in word_list] with its early return. *)
Fixpoint any_similar (normalized_word : str) (word_list : list str)
    (threshold : float) : bool :=
  match word_list with
  | [] => false
  | dict_word :: word_list' =>
      let similarity := ratio normalized_word dict_word in
      if (threshold <=? similarity)%float then true
      else any_similar normalized_word word_list' threshold
  end.

(** [is_similar_to_any(word, word_list, threshold)]; a set passed as
    [word_list] is the list of its elements. *)
Definition is_similar_to_any (word : str) (word_list : list str)
    (threshold : float) : bool :=
  let normalized_word := normalize_repeated_chars word in
  if str_in_list normalized_word word_list then true
  else any_similar normalized_word word_list threshold.

(** *** The request handler ([check_feedback] of [app.py]) *)

(** A value of the parsed JSON body: a string, or anything else (number,
    boolean, null, array, object), none of which has a [lower] method. *)
Inductive json_value :=
| JString (s : str)
| JNotString.

(** [check_feedback] from the parsed JSON object on:
    [text = data.get("text", "")], then [is_abusive(text)] with the default
    [debug=False]. [None] is the [AttributeError] that [text.lower()] raises
    in [preprocess] when the value is not a string. *)
Definition check_feedback (data : gmap str json_value) : option result :=
  match default (JString (u "")) (data !! u "text") with
  | JString text => Some (is_abusive text false)
  | JNotString => None
  end.

(** ** Specification-level notions *)

(** *** Words stored in a trie *)

(** Is [word] stored below [node], that is, does its path exist and end in
    a node marked as a word end. *)
Fixpoint stored_from (node : TrieNode) (word : str) : bool :=
  match word with
  | [] => is_end_of_word node
  | c :: word' =>
      match children node !! c with
      | None => false
      | Some child => stored_from child word'
      end
  end.

Definition stored (t : Trie) (word : str) : bool := stored_from (root t) word.

(** *** The language of a pattern *)

Inductive matches : regex → str → Prop :=
| matches_eps : matches Eps []
| matches_atom a c : atom_match a c = true → matches (Atom a) [c]
| matches_cat r1 r2 s1 s2 :
    matches r1 s1 → matches r2 s2 → matches (Cat r1 r2) (s1 ++ s2)
| matches_alt_l r1 r2 s : matches r1 s → matches (Alt r1 r2) s
| matches_alt_r r1 r2 s : matches r2 s → matches (Alt r1 r2) s
| matches_star_nil r : matches (Star r) []
| matches_star_app r s1 s2 :
    matches r s1 → matches (Star r) s2 → matches (Star r) (s1 ++ s2).

(** [pattern.fullmatch(token)] for the pattern compiled from [word]
    ([false] when the compilation raises). *)
Definition pattern_matches (word token : str) : bool :=
  match create_obfuscation_regex word with
  | Some pattern => fullmatch pattern token
  | None => false
  end.

Definition is_symbol (c : char) : bool := atom_match OBFUSCATION_SET c.
Definition is_filler (c : char) : bool := atom_match FILLER_SET c.

(** A token framed by the first and last characters of the word: the first
    character, a body for the middle characters, filler, the last
    character. *)
Definition framed (body_ok : str → str → Prop) (word token : str) : Prop :=
  ∃ first middle last c1 body filler2 c2,
    word = first :: middle ++ [last] ∧
    token = c1 :: body ++ filler2 ++ [c2] ∧
    ci_eq c1 first = true ∧ ci_eq c2 last = true ∧
    Forall (λ c, is_filler c = true) filler2 ∧
    body_ok middle body.

(** The spelling of one middle character as the specification words it: the
    character itself, or one or more symbols in its place. *)
Definition spec_piece (piece : str) (ch : char) : Prop :=
  (∃ c, piece = [c] ∧ ci_eq c ch = true) ∨
  (piece ≠ [] ∧ Forall (λ c, is_symbol c = true) piece).

(** The symbol-obfuscated spellings of a word as the specification words
    them: filler, then one piece per middle character. *)
Definition spec_body (middle body : str) : Prop :=
  ∃ filler1 pieces,
    body = filler1 ++ concat pieces ∧
    Forall (λ c, is_filler c = true) filler1 ∧
    Forall2 spec_piece pieces middle.

Definition spec_obfuscated_spelling : str → str → Prop := framed spec_body.

(** A pattern for the spellings the specification describes, so that they
    can be decided by running the matcher (lemma [spec_spelling_decide]):
    each middle character once as itself or as symbols, the middle section
    not optional. *)
Definition spec_piece_pattern (ch : char) : regex :=
  Alt (Atom (Literal ch)) OBFUSCATION.

Definition spec_step (acc : regex) (ch : char) : regex :=
  Cat acc (spec_piece_pattern ch).

Definition spec_spelling_pattern (word : str) : option regex :=
  match word with
  | [] => None
  | first :: _ =>
      Some (Cat (Atom (Literal first))
             (Cat (Cat (Star (Atom FILLER_SET))
                       (fold_left spec_step (slice_1_m1 word) Eps))
               (Cat (Star (Atom FILLER_SET))
                    (Atom (Literal (List.last word first))))))
  end.

Definition spec_spelling_b (word token : str) : bool :=
  match spec_spelling_pattern word with
  | Some pattern => fullmatch pattern token
  | None => false
  end.

(** The spelling of one middle character that the pattern accepts: a
    non-empty run in which every character is the middle character or a
    symbol. *)
Definition run_of (run : str) (ch : char) : Prop :=
  run ≠ [] ∧ Forall (λ c, ci_eq c ch = true ∨ is_symbol c = true) run.

Definition middle_runs (middle s : str) : Prop :=
  ∃ runs, s = concat runs ∧ Forall2 run_of runs middle.

(** The body the pattern accepts: nothing at all, or filler followed by one
    run per middle character. *)
Definition pattern_body (middle body : str) : Prop :=
  body = [] ∨
  ∃ filler1 m,
    body = filler1 ++ m ∧
    Forall (λ c, is_filler c = true) filler1 ∧
    middle_runs middle m.

Definition pattern_language : str → str → Prop := framed pattern_body.

(** *** The classifier with the trie queried on the normalized token

    The loop of [is_abusive] as section 4.2 of the specification words it
    (normalization applied before the trie lookup), for comparison with
    [abusive_loop]. *)
Fixpoint spec_abusive_loop_normalized (all_tokens rest : list str) : bool :=
  match rest with
  | [] => false
  | token :: rest' =>
      if str_in_list token safe_words
      then spec_abusive_loop_normalized all_tokens rest'
      else if search_prefix trie (normalize_repeated_chars token) then true
      else if existsb (λ pattern, fullmatch pattern token) patterns then true
      else if str_in_list MIDDLE_FINGER all_tokens then true
      else spec_abusive_loop_normalized all_tokens rest'
  end.

(** Does [token], read in the raw, trigger the abusive verdict. *)
Definition triggers (all_tokens : list str) (token : str) : Prop :=
  (token ∉ safe_words) ∧
  (search_prefix trie token = true ∨
   (∃ pattern, pattern ∈ patterns ∧ fullmatch pattern token = true) ∨
   MIDDLE_FINGER ∈ all_tokens).

(** *** Votes of the sentiment scorer *)

Definition normalized (token : str) : str :=
  normalize_repeated_chars (lower token).

Definition similar_to_some (norm : str) (words : gset str) : Prop :=
  ∃ w, w ∈ words ∧ (0.8 <=? ratio norm w)%float = true.

(** Does the token add one to the positive count, as the specification
    words it. *)
Definition spec_votes_positive (token : str) : Prop :=
  normalized token ∈ positive_words ∨
  ((normalized token ∉ positive_words) ∧ (normalized token ∉ negative_words) ∧
   similar_to_some (normalized token) positive_words).

Definition spec_votes_negative (token : str) : Prop :=
  (normalized token ∉ positive_words) ∧
  (normalized token ∈ negative_words ∨
   similar_to_some (normalized token) negative_words).

#[local] Instance spec_votes_positive_dec token : Decision (spec_votes_positive token).
Proof.
  unfold spec_votes_positive, similar_to_some.
  assert (Decision (∃ w, w ∈ positive_words ∧
            (0.8 <=? ratio (normalized token) w)%float = true)).
  { eapply (set_Exists_dec (λ w, (0.8 <=? ratio (normalized token) w)%float = true)). }
  apply _.
Defined.

#[local] Instance spec_votes_negative_dec token : Decision (spec_votes_negative token).
Proof.
  unfold spec_votes_negative, similar_to_some.
  assert (Decision (∃ w, w ∈ negative_words ∧
            (0.8 <=? ratio (normalized token) w)%float = true)).
  { eapply (set_Exists_dec (λ w, (0.8 <=? ratio (normalized token) w)%float = true)). }
  apply _.
Defined.

(** The vote of a token: one when the condition holds. *)
Definition vote (P : Prop) `{Decision P} : nat := if decide P then 1 else 0.

Definition spec_positive_count (tokens : list str) : nat :=
  length (filter spec_votes_positive tokens).

Definition spec_negative_count (tokens : list str) : nat :=
  length (filter spec_votes_negative tokens).

(** What the debug entry of a token records. *)
Definition detail_of (token : str) (info : token_info) : Prop :=
  ti_token info = token ∧
  ti_normalized info = normalized token ∧
  (exact_positive info = true ↔ normalized token ∈ positive_words) ∧
  (exact_negative info = true ↔
     (normalized token ∉ positive_words) ∧ normalized token ∈ negative_words) ∧
  (∀ m, m ∈ fuzzy_positive_matches info ↔
     (normalized token ∉ positive_words) ∧ (normalized token ∉ negative_words) ∧
     fm_word m ∈ positive_words ∧ fm_score m = ratio (normalized token) (fm_word m) ∧
     (0.8 <=? fm_score m)%float = true) ∧
  (∀ m, m ∈ fuzzy_negative_matches info ↔
     (normalized token ∉ positive_words) ∧ (normalized token ∉ negative_words) ∧
     fm_word m ∈ negative_words ∧ fm_score m = ratio (normalized token) (fm_word m) ∧
     (0.8 <=? fm_score m)%float = true).

Definition sentiment_labels : list str :=
  [u "Positive"; u "Negative"; u "Neutral"].

(** *** The sentiment field as the specification words it *)

(** One of the three labels when the classification is "Clean", the empty
    string otherwise. *)
Definition spec_sentiment_field (r : result) : Prop :=
  (classification r = u "Clean" ∧
   ∃ lbl, lbl ∈ sentiment_labels ∧ sentiment r = SentStr lbl) ∨
  ((classification r = u "Abusive" ∨
    classification r = u "Please give meaningful feedback") ∧
   sentiment r = SentStr (u "")).

(** * Supporting lemmas *)

(** ** The normalizer *)

Lemma consecutive_repeat_same c seen :
  consecutive_repeat c (c :: seen) = S (consecutive_repeat c seen).
Proof. unfold consecutive_repeat. simpl. by rewrite decide_True. Qed.

Lemma consecutive_repeat_other c p seen :
  p ≠ c → consecutive_repeat c (p :: seen) = 1.
Proof. intros. unfold consecutive_repeat. simpl. by rewrite decide_False. Qed.

Lemma norm_step_spec seen st c :
  norm_inv seen st →
  norm_inv (c :: seen) (norm_step st c) ∧
  result_chars (norm_step st c) =
    result_chars st ++ (if consecutive_repeat c seen <=? 2 then [c] else []).
Proof.
  intros Hinv. unfold norm_step.
  destruct seen as [|p seen']; simpl in Hinv; destruct Hinv as [Hp Hc]; rewrite Hp.
  - rewrite decide_False by done. simpl. done.
  - destruct (decide (Some c = Some p)) as [[= ->]|Hne]; simpl repeat_count.
    + rewrite Hc, consecutive_repeat_same.
      destruct (S (consecutive_repeat p seen') <=? 2); simpl;
        rewrite ?consecutive_repeat_same, ?app_nil_r; done.
    + rewrite consecutive_repeat_other by congruence. simpl.
      rewrite consecutive_repeat_other by congruence. done.
Qed.

Lemma norm_loop_spec rest : ∀ seen st,
  norm_inv seen st →
  result_chars (fold_left norm_step rest st) =
    result_chars st ++ keep_upto_two seen rest.
Proof.
  induction rest as [|c rest IH]; intros seen st Hinv; simpl.
  - by rewrite app_nil_r.
  - destruct (norm_step_spec seen st c Hinv) as [Hinv' Hres].
    rewrite (IH _ _ Hinv'), Hres, <- app_assoc. done.
Qed.

Lemma normalize_keep word :
  normalize_repeated_chars word = keep_upto_two [] word.
Proof.
  destruct word as [|c w]; [done|].
  unfold normalize_repeated_chars.
  rewrite (norm_loop_spec (c :: w) [] (mkNormState [] None 0)); done.
Qed.

Lemma keep_upto_two_sublist rest : ∀ seen, sublist (keep_upto_two seen rest) rest.
Proof.
  induction rest as [|c rest IH]; intros seen; cbn [keep_upto_two]; [constructor|].
  destruct (consecutive_repeat c seen <=? 2); cbn [app].
  - by apply sublist_skip.
  - by apply sublist_cons.
Qed.

(** What the kept characters can start with, given what was just scanned. *)
Lemma keep_upto_two_head rest : ∀ seen,
  no_triple (keep_upto_two seen rest) = true ∧
  (∀ c t, 2 ≤ run_before c seen → keep_upto_two seen rest ≠ c :: t) ∧
  (∀ c t, 1 ≤ run_before c seen → keep_upto_two seen rest ≠ c :: c :: t).
Proof.
  induction rest as [|c rest IH]; intros seen; cbn [keep_upto_two].
  { split; [done|]. split; intros; discriminate. }
  destruct (IH (c :: seen)) as (Hnt & H2 & H1).
  assert (Hrun : run_before c (c :: seen) = S (run_before c seen)).
  { simpl. by rewrite decide_True. }
  assert (Hother : ∀ c', c' ≠ c → 1 ≤ run_before c' seen → run_before c seen = 0).
  { intros c' Hne Hr. destruct seen as [|x s]; simpl in *; [lia|].
    destruct (decide (x = c')) as [->|]; [|lia].
    by rewrite decide_False. }
  unfold consecutive_repeat.
  destruct (S (run_before c seen) <=? 2) eqn:E; cbn [app].
  - apply Nat.leb_le in E. split; [|split].
    + destruct (keep_upto_two (c :: seen) rest) as [|b [|d t]] eqn:Ek; try done.
      change (no_triple (c :: b :: d :: t))
        with (negb ((c =? b)%N && (b =? d)%N) && no_triple (b :: d :: t)).
      rewrite Hnt, andb_true_r. apply negb_true_iff, andb_false_iff.
      destruct (decide (run_before c seen = 0)) as [Hz|Hnz].
      * destruct (N.eqb_spec c b) as [<-|]; [|by left].
        destruct (N.eqb_spec c d) as [<-|]; [|by right].
        exfalso. eapply (H1 c t); [lia|done].
      * left. apply N.eqb_neq. intros <-. eapply (H2 c); [lia|done].
    + intros c' t Hr [= <- _]. lia.
    + intros c' t Hr [= <- Ht].
      eapply (H2 c t); [lia|done].
  - apply Nat.leb_gt in E. split; [done|]. split.
    + intros c' t Hr. destruct (decide (c' = c)) as [->|Hne].
      * apply H2. lia.
      * rewrite (Hother c' Hne) in E; lia.
    + intros c' t Hr. destruct (decide (c' = c)) as [->|Hne].
      * intros Hk. eapply (H2 c); [lia|done].
      * rewrite (Hother c' Hne Hr) in E; lia.
Qed.

(** ** The trie *)

Lemma stored_from_new word : stored_from new_node word = false.
Proof. destruct word as [|c w]; simpl; [done|]. by rewrite lookup_empty. Qed.

(** Inserting [x] stores [x] and leaves every other word as it was. *)
Lemma stored_from_insert x : ∀ node word,
  stored_from (insert_from node x) word
  = bool_decide (word = x) || stored_from node word.
Proof.
  induction x as [|c x IH]; intros node [|d w]; simpl; try done.
  destruct (decide (c = d)) as [->|Hne].
  - rewrite lookup_insert_eq, IH.
    rewrite (bool_decide_ext (d :: w = d :: x) (w = x)) by (split; congruence).
    destruct (children node !! d); simpl; [done|].
    by rewrite stored_from_new.
  - rewrite lookup_insert_ne by done.
    by rewrite bool_decide_false by congruence.
Qed.

Lemma stored_insert t x word :
  stored (insert t x) word = true ↔ word = x ∨ stored t word = true.
Proof.
  unfold stored, insert. simpl. rewrite stored_from_insert, orb_true_iff.
  by rewrite bool_decide_eq_true.
Qed.

Lemma stored_fold_insert words : ∀ t word,
  stored (fold_left insert words t) word = true
  ↔ word ∈ words ∨ stored t word = true.
Proof.
  induction words as [|x words IH]; intros t word; simpl.
  - split; [by right|]. intros [H|H]; [by apply elem_of_nil in H|done].
  - rewrite IH, stored_insert, elem_of_cons.
    split; [intros [?|[->|?]]|intros [[->|?]|?]]; auto.
Qed.

Lemma stored_build_trie words word :
  stored (build_trie words) word = true ↔ word ∈ words.
Proof.
  unfold build_trie. rewrite stored_fold_insert.
  unfold stored, new_trie. simpl. rewrite stored_from_new.
  split; [intros [H|H]; [done|discriminate]|by left].
Qed.

(** [search_prefix] answers whether a stored, non-empty word is a prefix of
    the token. *)
Lemma search_prefix_from_spec token : ∀ node,
  search_prefix_from node token = true
  ↔ ∃ w, w ≠ [] ∧ w `prefix_of` token ∧ stored_from node w = true.
Proof.
  induction token as [|c token IH]; intros node; simpl.
  - split; [done|]. intros (w & Hne & Hpre & _).
    by apply prefix_nil_inv in Hpre.
  - split.
    + destruct (children node !! c) as [child|] eqn:Hc; [|done].
      destruct (is_end_of_word child) eqn:Hend.
      * intros _. exists [c]. split; [done|]. split.
        -- apply prefix_cons, prefix_nil.
        -- simpl. by rewrite Hc.
      * intros (w & Hne & Hpre & Hst)%IH. exists (c :: w).
        split; [done|]. split; [by apply prefix_cons|].
        simpl. by rewrite Hc.
    + intros ([|d w] & Hne & Hpre & Hst); [done|].
      pose proof (prefix_cons_inv_1 _ _ _ _ Hpre) as ->.
      apply prefix_cons_inv_2 in Hpre. simpl in Hst.
      destruct (children node !! c) as [child|]; [|done].
      destruct (is_end_of_word child) eqn:Hend; [done|].
      apply IH. exists w. split; [|done].
      intros ->. simpl in Hst. congruence.
Qed.

(** ** Patterns: the matcher decides the language *)

Lemma matches_void_inv s : matches Void s → False.
Proof. inversion 1. Qed.

Lemma matches_eps_iff s : matches Eps s ↔ s = [].
Proof. split; [by inversion 1|intros ->; constructor]. Qed.

Lemma matches_atom_iff a s :
  matches (Atom a) s ↔ ∃ c, s = [c] ∧ atom_match a c = true.
Proof.
  split.
  - inversion 1; subst. eauto.
  - intros (c & -> & H). by constructor.
Qed.

Lemma matches_cat_iff r1 r2 s :
  matches (Cat r1 r2) s ↔ ∃ s1 s2, s = s1 ++ s2 ∧ matches r1 s1 ∧ matches r2 s2.
Proof.
  split.
  - inversion 1; subst. eauto.
  - intros (s1 & s2 & -> & H1 & H2). by constructor.
Qed.

Lemma matches_alt_iff r1 r2 s :
  matches (Alt r1 r2) s ↔ matches r1 s ∨ matches r2 s.
Proof.
  split.
  - inversion 1; subst; eauto.
  - intros [H|H]; [by apply matches_alt_l|by apply matches_alt_r].
Qed.

Lemma matches_opt_iff r s : matches (Opt r) s ↔ matches r s ∨ s = [].
Proof. unfold Opt. by rewrite matches_alt_iff, matches_eps_iff. Qed.

Lemma nullable_spec r : nullable r = true ↔ matches r [].
Proof.
  induction r as [| |a|r1 IH1 r2 IH2|r1 IH1 r2 IH2|r IH]; simpl.
  - split; [done|intros []%matches_void_inv].
  - split; [constructor|done].
  - split; [done|]. intros (c & ? & _)%matches_atom_iff. done.
  - rewrite andb_true_iff, IH1, IH2, matches_cat_iff. split.
    + intros [H1 H2]. by exists [], [].
    + intros (s1 & s2 & Heq & H1 & H2). symmetry in Heq.
      apply app_eq_nil in Heq as [-> ->]. done.
  - by rewrite orb_true_iff, IH1, IH2, matches_alt_iff.
  - split; [constructor|done].
Qed.

(** A non-empty match of a star starts with a non-empty match of its body. *)
Lemma matches_star_cons_inv r c s :
  matches (Star r) (c :: s) →
  ∃ s1 s2, s = s1 ++ s2 ∧ matches r (c :: s1) ∧ matches (Star r) s2.
Proof.
  intros H. remember (Star r) as r' eqn:Hr. remember (c :: s) as t eqn:Ht.
  revert s Ht.
  induction H as [| | | | | |r0 s1 s2 H1 _ H2 IH2]; try discriminate.
  intros s' Ht. injection Hr as ->. destruct s1 as [|d s1]; simpl in Ht.
  - by apply IH2.
  - injection Ht as -> <-. eauto.
Qed.

Lemma deriv_spec c r : ∀ s, matches (deriv c r) s ↔ matches r (c :: s).
Proof.
  induction r as [| |a|r1 IH1 r2 IH2|r1 IH1 r2 IH2|r IH]; intros s; simpl.
  - split; intros []%matches_void_inv.
  - split; [intros []%matches_void_inv|]. by intros ?%matches_eps_iff.
  - rewrite matches_atom_iff. destruct (atom_match a c) eqn:Ha.
    + rewrite matches_eps_iff. split.
      * intros ->. eauto.
      * by intros (d & [= _ ->] & _).
    + split; [intros []%matches_void_inv|].
      intros (d & [= -> _] & Hd). congruence.
  - assert (Hcat : matches (Cat (deriv c r1) r2) s →
                   matches (Cat r1 r2) (c :: s)).
    { intros (s1 & s2 & -> & H1 & H2)%matches_cat_iff.
      apply IH1 in H1. by apply (matches_cat _ _ (c :: s1) s2). }
    assert (Hinv : matches (Cat r1 r2) (c :: s) →
                   matches (Cat (deriv c r1) r2) s ∨
                   (matches r1 [] ∧ matches r2 (c :: s))).
    { intros (s1 & s2 & Heq & H1 & H2)%matches_cat_iff.
      destruct s1 as [|d s1]; simpl in Heq.
      - right. by subst.
      - injection Heq as <- ->. left. apply matches_cat_iff.
        exists s1, s2. split; [done|]. split; [by apply IH1|done]. }
    destruct (nullable r1) eqn:Hn.
    + rewrite matches_alt_iff. split.
      * intros [H|H]; [by apply Hcat|].
        apply IH2 in H. apply nullable_spec in Hn.
        by apply (matches_cat _ _ [] (c :: s)).
      * intros [H|[_ H]]%Hinv; [by left|]. right. by apply IH2.
    + split; [done|]. intros [H|[H _]]%Hinv; [done|].
      apply nullable_spec in H. congruence.
  - by rewrite !matches_alt_iff, IH1, IH2.
  - rewrite matches_cat_iff. split.
    + intros (s1 & s2 & -> & H1 & H2). apply IH in H1.
      by apply (matches_star_app _ (c :: s1) s2).
    + intros (s1 & s2 & -> & H1 & H2)%matches_star_cons_inv.
      exists s1, s2. split; [done|]. split; [by apply IH|done].
Qed.

Lemma fullmatch_spec token : ∀ pattern,
  fullmatch pattern token = true ↔ matches pattern token.
Proof.
  induction token as [|c token IH]; intros pattern; simpl.
  - apply nullable_spec.
  - by rewrite IH, deriv_spec.
Qed.

(** ** Patterns: the language of the generated shapes *)

Section star_of_chars.
Variable r : regex.
Variable P : char → Prop.
Hypothesis r_chars : ∀ s, matches r s → Forall P s.
Hypothesis r_single : ∀ c, P c → matches r [c].

Lemma matches_star_forall s : matches (Star r) s ↔ Forall P s.
Proof using r_chars r_single.
  split.
  - intros H. remember (Star r) as r' eqn:Hr.
    induction H as [| | | | | |r0 s1 s2 H1 _ H2 IH2]; try discriminate.
    + constructor.
    + injection Hr as ->. apply Forall_app. split; [by apply r_chars|].
      by apply IH2.
  - induction 1 as [|c s Hc _ IH]; [constructor|].
    apply (matches_star_app _ [c] s); [by apply r_single|done].
Qed.

Lemma matches_plus_forall s :
  (∀ s', matches r s' → s' ≠ []) →
  matches (Plus r) s ↔ s ≠ [] ∧ Forall P s.
Proof using r_chars r_single.
  intros Hne. unfold Plus. rewrite matches_cat_iff. split.
  - intros (s1 & s2 & -> & H1 & H2). split.
    + intros [Hs1 _]%app_eq_nil. by apply (Hne s1).
    + apply Forall_app. split; [by apply r_chars|].
      by apply matches_star_forall.
  - intros [Hs Hall]. destruct s as [|c s]; [done|].
    apply Forall_cons in Hall as [Hc Hall].
    exists [c], s. split; [done|]. split; [by apply r_single|].
    by apply matches_star_forall.
Qed.
End star_of_chars.

Lemma matches_star_atom a s :
  matches (Star (Atom a)) s ↔ Forall (λ c, atom_match a c = true) s.
Proof.
  apply matches_star_forall.
  - intros s' (c & -> & Hc)%matches_atom_iff. by repeat constructor.
  - intros c Hc. by constructor.
Qed.

Lemma matches_OBFUSCATION s :
  matches OBFUSCATION s ↔ s ≠ [] ∧ Forall (λ c, is_symbol c = true) s.
Proof.
  unfold OBFUSCATION. apply matches_plus_forall.
  - intros s' (c & -> & Hc)%matches_atom_iff. by repeat constructor.
  - intros c Hc. by constructor.
  - by intros s' (c & -> & _)%matches_atom_iff.
Qed.

(** One alternative [re.escape(ch)|OBFUSCATION] is what the specification
    calls a piece. *)
Lemma matches_alternative ch s :
  matches (Alt (Atom (Literal ch)) OBFUSCATION) s ↔ spec_piece s ch.
Proof.
  rewrite matches_alt_iff, matches_atom_iff, matches_OBFUSCATION. done.
Qed.

(** The repeated alternative is a run. *)
Lemma matches_middle_piece ch s : matches (middle_piece ch) s ↔ run_of s ch.
Proof.
  unfold middle_piece, run_of.
  apply (matches_plus_forall _ (λ c, ci_eq c ch = true ∨ is_symbol c = true)).
  - intros s' [(c & -> & Hc)|[_ Hall]]%matches_alternative.
    + apply Forall_singleton. by left.
    + eapply Forall_impl; [exact Hall|]. intros c Hc. by right.
  - intros c [Hc|Hc]; apply matches_alternative.
    + left. eauto.
    + right. split; [done|]. by apply Forall_singleton.
  - intros s' [(c & -> & _)|[Hne _]]%matches_alternative; done.
Qed.

Section pieces.
Variable piece : char → regex.
Variable piece_ok : str → char → Prop.
Hypothesis piece_spec : ∀ ch s, matches (piece ch) s ↔ piece_ok s ch.

(** The pattern string built by a loop [pattern += piece(ch)]. *)
Lemma matches_pieces middle : ∀ acc s,
  matches (fold_left (λ acc ch, Cat acc (piece ch)) middle acc) s
  ↔ ∃ s0 runs, s = s0 ++ concat runs ∧ matches acc s0 ∧
               Forall2 piece_ok runs middle.
Proof using piece_spec.
  induction middle as [|ch middle IH]; intros acc s; simpl.
  - split.
    + intros H. exists s, []. simpl. rewrite app_nil_r.
      split; [done|]. split; [done|constructor].
    + intros (s0 & runs & -> & H & Hruns).
      apply Forall2_nil_inv_r in Hruns as ->. simpl. by rewrite app_nil_r.
  - rewrite IH. split.
    + intros (s0 & runs & -> & (sa & run & -> & Ha & Hrun)%matches_cat_iff
               & Hruns).
      exists sa, (run :: runs). simpl. rewrite <- app_assoc.
      split; [done|]. split; [done|].
      constructor; [by apply piece_spec|done].
    + intros (s0 & runs & -> & Ha & Hruns).
      apply Forall2_cons_inv_r in Hruns as (run & runs' & Hrun & Hruns & ->).
      exists (s0 ++ run), runs'. simpl. rewrite <- app_assoc.
      split; [done|]. split; [|done].
      apply matches_cat_iff. exists s0, run.
      split; [done|]. split; [done|by apply piece_spec].
Qed.

Lemma matches_pieces_eps middle s :
  matches (fold_left (λ acc ch, Cat acc (piece ch)) middle Eps) s
  ↔ ∃ runs, s = concat runs ∧ Forall2 piece_ok runs middle.
Proof using piece_spec.
  rewrite matches_pieces. split.
  - intros (s0 & runs & -> & ->%matches_eps_iff & Hruns). by exists runs.
  - intros (runs & -> & Hruns). exists [], runs.
    split; [done|]. split; [constructor|done].
Qed.
End pieces.

Lemma matches_middle_pattern middle s :
  matches (fold_left middle_step middle Eps) s ↔ middle_runs middle s.
Proof. apply (matches_pieces_eps middle_piece run_of matches_middle_piece). Qed.

Lemma matches_spec_pieces middle s :
  matches (fold_left spec_step middle Eps) s
  ↔ ∃ pieces, s = concat pieces ∧ Forall2 spec_piece pieces middle.
Proof.
  apply (matches_pieces_eps spec_piece_pattern spec_piece matches_alternative).
Qed.

(** The frame shared by the compiled pattern and the specified spellings:
    first character, a body, filler, last character. *)
Lemma matches_frame (body_re : regex) (body_ok : str → str → Prop)
    (first : char) (middle : str) (last : char) (token : str) :
  (∀ body, matches body_re body ↔ body_ok middle body) →
  matches (Cat (Atom (Literal first))
            (Cat body_re (Cat (Star (Atom FILLER_SET)) (Atom (Literal last)))))
          token
  ↔ framed body_ok (first :: middle ++ [last]) token.
Proof.
  intros Hbody_re. unfold framed. split.
  - intros (s1 & s2 & -> & (c1 & -> & Hc1)%matches_atom_iff
            & (body & s3 & -> & Hbody
               & (filler2 & s4 & -> & Hf2%matches_star_atom
                  & (c2 & -> & Hc2)%matches_atom_iff)%matches_cat_iff
              )%matches_cat_iff)%matches_cat_iff.
    exists first, middle, last, c1, body, filler2, c2.
    do 5 (split; [done|]). by apply Hbody_re.
  - intros (first' & middle' & last' & c1 & body & filler2 & c2
            & Hw & -> & Hc1 & Hc2 & Hf2 & Hbody).
    injection Hw as <- Hw. apply app_inj_tail in Hw as [<- <-].
    apply matches_cat_iff. exists [c1], (body ++ filler2 ++ [c2]).
    split; [done|]. split; [by apply matches_atom_iff; eauto|].
    apply matches_cat_iff. exists body, (filler2 ++ [c2]).
    split; [done|]. split; [by apply Hbody_re|].
    apply matches_cat_iff. exists filler2, [c2]. split; [done|].
    split; [by apply matches_star_atom|].
    apply matches_atom_iff. eauto.
Qed.

(** A word of at least two characters is its first character, its middle
    [word[1:-1]] and its last character [word[-1]]. *)
Lemma word_frame (word : str) :
  2 ≤ length word → ∃ first middle last, word = first :: middle ++ [last].
Proof.
  intros Hlen. destruct word as [|first rest]; [simpl in Hlen; lia|].
  destruct (exists_last (l := rest)) as (middle & last & ->); [|eauto].
  intros ->. simpl in Hlen. lia.
Qed.

Lemma slice_frame (first : char) middle last :
  slice_1_m1 (first :: middle ++ [last]) = middle.
Proof. unfold slice_1_m1. simpl. apply removelast_last. Qed.

Lemma last_frame (first : char) middle last d :
  List.last (first :: middle ++ [last]) d = last.
Proof. apply (last_last (first :: middle)). Qed.

(** The language of the pattern compiled from a word. *)
Lemma pattern_matches_language (word token : str) :
  2 ≤ length word →
  pattern_matches word token = true ↔ pattern_language word token.
Proof.
  intros (first & middle & last & ->)%word_frame.
  unfold pattern_matches, create_obfuscation_regex.
  rewrite slice_frame, last_frame, fullmatch_spec.
  apply matches_frame. intros body. unfold pattern_body.
  rewrite matches_opt_iff, matches_cat_iff. split.
  - intros [(filler1 & m & -> & Hf1%matches_star_atom
             & Hm%matches_middle_pattern)| ->]; [right|by left].
    by exists filler1, m.
  - intros [->|(filler1 & m & -> & Hf1 & Hm)]; [by right|left].
    exists filler1, m. split; [done|].
    split; [by apply matches_star_atom|by apply matches_middle_pattern].
Qed.

(** The matcher run on [spec_spelling_pattern] decides the spellings the
    specification describes. *)
Lemma spec_spelling_decide (word token : str) :
  2 ≤ length word →
  spec_spelling_b word token = true ↔ spec_obfuscated_spelling word token.
Proof.
  intros (first & middle & last & ->)%word_frame.
  unfold spec_spelling_b, spec_spelling_pattern.
  rewrite slice_frame, last_frame, fullmatch_spec.
  apply matches_frame. intros body. unfold spec_body.
  rewrite matches_cat_iff. split.
  - intros (filler1 & m & -> & Hf1%matches_star_atom
            & (pieces & -> & Hp)%matches_spec_pieces).
    by exists filler1, pieces.
  - intros (filler1 & pieces & -> & Hf1 & Hp).
    exists filler1, (concat pieces). split; [done|].
    split; [by apply matches_star_atom|].
    apply matches_spec_pieces. by exists pieces.
Qed.

(** Every spelling the specification describes is in the language of the
    compiled pattern. *)
Lemma spec_spelling_in_language word token :
  spec_obfuscated_spelling word token → pattern_language word token.
Proof.
  intros (first & middle & last & c1 & body & filler2 & c2
          & Hw & -> & Hc1 & Hc2 & Hf2 & filler1 & pieces & -> & Hf1 & Hp).
  exists first, middle, last, c1, (filler1 ++ concat pieces), filler2, c2.
  do 5 (split; [done|]). right. exists filler1, (concat pieces).
  split; [done|]. split; [done|]. exists pieces. split; [done|].
  eapply Forall2_impl; [exact Hp|].
  intros piece ch [(c & -> & Hc)|[Hne Hall]]; split; try done.
  - apply Forall_singleton. by left.
  - eapply Forall_impl; [exact Hall|]. intros c Hc. by right.
Qed.

(** ** The classifier loop *)

Lemma str_in_list_spec (x : str) (l : list str) : str_in_list x l = true ↔ x ∈ l.
Proof. apply bool_decide_eq_true. Qed.

Lemma str_in_set_spec (x : str) (X : gset str) : str_in_set x X = true ↔ x ∈ X.
Proof. apply bool_decide_eq_true. Qed.

Lemma existsb_elem_of {A} (f : A → bool) (l : list A) :
  existsb f l = true ↔ ∃ x, x ∈ l ∧ f x = true.
Proof.
  rewrite existsb_exists.
  split; intros (x & Hx & Hf); exists x; (split; [|done]);
    by apply list_elem_of_In.
Qed.

Lemma patterns_compiled :
  mapM create_obfuscation_regex abusive_words = Some patterns.
Proof. by vm_compute. Qed.

(** The loop returns the abusive verdict exactly when some token triggers
    it. *)
Lemma abusive_loop_spec all_tokens rest :
  abusive_loop all_tokens rest = true
  ↔ ∃ token, token ∈ rest ∧ triggers all_tokens token.
Proof.
  induction rest as [|token rest IH]; cbn [abusive_loop].
  - split; [done|]. by intros (t & ?%elem_of_nil & _).
  - destruct (str_in_list token safe_words) eqn:Hsafe.
    { apply str_in_list_spec in Hsafe. rewrite IH.
      split; intros (t & Ht & Htr).
      - exists t. split; [by right|done].
      - apply elem_of_cons in Ht as [->|Ht]; [by destruct Htr|eauto]. }
    assert (Hns : token ∉ safe_words).
    { intros H%str_in_list_spec. congruence. }
    assert (Hhere : ∀ t, t ∈ token :: rest → triggers all_tokens t →
              triggers all_tokens token ∨ ∃ t', t' ∈ rest ∧ triggers all_tokens t').
    { intros t [->|Ht]%elem_of_cons Htr; [by left|right; eauto]. }
    destruct (search_prefix trie token) eqn:Htrie.
    { split; [|done]. intros _. exists token.
      split; [by left|]. split; [done|by left]. }
    destruct (existsb (λ pattern, fullmatch pattern token) patterns) eqn:Hpat.
    { split; [|done]. intros _. exists token.
      split; [by left|]. split; [done|]. right. left.
      by apply existsb_elem_of in Hpat. }
    destruct (str_in_list MIDDLE_FINGER all_tokens) eqn:Hmf.
    { split; [|done]. intros _. exists token.
      split; [by left|]. split; [done|]. right. right.
      by apply str_in_list_spec. }
    rewrite IH. split.
    + intros (t & Ht & Htr). exists t. split; [by right|done].
    + intros (t & Ht & Htr).
      destruct (Hhere t Ht Htr) as [(_ & [H|[H|H]])|H]; [| | |done].
      * congruence.
      * apply existsb_elem_of in H. congruence.
      * apply str_in_list_spec in H. congruence.
Qed.

Lemma abusive_loop_safe all_tokens token rest :
  token ∈ safe_words →
  abusive_loop all_tokens (token :: rest) = abusive_loop all_tokens rest.
Proof. intros H%str_in_list_spec. cbn [abusive_loop]. by rewrite H. Qed.

Lemma classification_is_abusive_tokens tokens debug :
  classification (is_abusive_tokens tokens debug) =
    match tokens with
    | [] => u "Please give meaningful feedback"
    | _ => if abusive_loop tokens tokens then u "Abusive" else u "Clean"
    end.
Proof.
  unfold is_abusive_tokens. destruct tokens as [|t ts]; [done|].
  destruct (abusive_loop (t :: ts) (t :: ts)); [done|]. by destruct debug.
Qed.

(** ** The sentiment scorer *)

Lemma fuzzy_matches_elem norm words m :
  m ∈ fuzzy_matches norm words
  ↔ fm_word m ∈ words ∧ fm_score m = ratio norm (fm_word m) ∧
    (0.8 <=? fm_score m)%float = true.
Proof.
  unfold fuzzy_matches. rewrite list_elem_of_omap. split.
  - intros (w & Hw%elem_of_elements & Hf).
    destruct (0.8 <=? ratio norm w)%float eqn:E; [|done].
    injection Hf as <-. done.
  - intros (Hw & Hs & Hle). exists (fm_word m).
    split; [by apply elem_of_elements|].
    rewrite <- Hs, Hle. by destruct m.
Qed.

Lemma fuzzy_matches_nonempty norm words :
  fuzzy_matches norm words ≠ [] ↔ similar_to_some norm words.
Proof.
  split.
  - destruct (fuzzy_matches norm words) as [|m l] eqn:E; [done|]. intros _.
    assert (Hm : m ∈ fuzzy_matches norm words) by (rewrite E; by left).
    apply fuzzy_matches_elem in Hm as (Hw & Hs & Hle).
    exists (fm_word m). split; [done|]. by rewrite <- Hs.
  - intros (w & Hw & Hle) E.
    assert (Hm : mkFuzzyMatch w (ratio norm w) ∈ fuzzy_matches norm words).
    { by apply fuzzy_matches_elem. }
    rewrite E in Hm. by apply elem_of_nil in Hm.
Qed.

(** One iteration adds the token's votes and appends its debug entry. *)
Lemma sentiment_step_spec st token :
  st_positive (sentiment_step st token)
    = st_positive st + vote (spec_votes_positive token) ∧
  st_negative (sentiment_step st token)
    = st_negative st + vote (spec_votes_negative token) ∧
  ∃ info, st_details (sentiment_step st token) = st_details st ++ [info] ∧
          detail_of token info.
Proof.
  unfold sentiment_step, vote. fold (normalized token).
  destruct (str_in_set (normalized token) positive_words) eqn:Hp.
  { apply str_in_set_spec in Hp. simpl.
    rewrite decide_True by (by left).
    rewrite decide_False by (by intros [? _]).
    split; [lia|]. split; [lia|]. eexists. split; [done|].
    unfold detail_of. simpl. split_and!; [done|done|done| | |].
    - split; [done|by intros [? _]].
    - intros m. split; [by intros ?%elem_of_nil|by intros (? & _)].
    - intros m. split; [by intros ?%elem_of_nil|by intros (? & _)]. }
  assert (Hnp : normalized token ∉ positive_words).
  { intros H%str_in_set_spec. congruence. }
  destruct (str_in_set (normalized token) negative_words) eqn:Hn.
  { apply str_in_set_spec in Hn. simpl.
    rewrite decide_False by (by intros [?|(_ & ? & _)]).
    rewrite decide_True by (split; [done|by left]).
    split; [lia|]. split; [lia|]. eexists. split; [done|].
    unfold detail_of. simpl. split_and!; [done|done|done|done| |].
    - intros m. split; [by intros ?%elem_of_nil|by intros (_ & ? & _)].
    - intros m. split; [by intros ?%elem_of_nil|by intros (_ & ? & _)]. }
  assert (Hnn : normalized token ∉ negative_words).
  { intros H%str_in_set_spec. congruence. }
  simpl. split; [|split].
  - destruct (fuzzy_matches (normalized token) positive_words) eqn:E.
    + rewrite decide_False; [lia|]. intros [?|(_ & _ & Hs)]; [done|].
      by apply fuzzy_matches_nonempty in Hs.
    + rewrite decide_True; [lia|]. right. split; [done|]. split; [done|].
      apply fuzzy_matches_nonempty. by rewrite E.
  - destruct (fuzzy_matches (normalized token) negative_words) eqn:E.
    + rewrite decide_False; [lia|]. intros [_ [?|Hs]]; [done|].
      by apply fuzzy_matches_nonempty in Hs.
    + rewrite decide_True; [lia|]. split; [done|]. right.
      apply fuzzy_matches_nonempty. by rewrite E.
  - eexists. split; [done|].
    unfold detail_of. simpl. split_and!; [done|done|done| | |].
    + split; [done|by intros [_ ?]].
    + intros m. rewrite fuzzy_matches_elem.
      split; [by intros (? & ? & ?)|by intros (_ & _ & ?)].
    + intros m. rewrite fuzzy_matches_elem.
      split; [by intros (? & ? & ?)|by intros (_ & _ & ?)].
Qed.

Lemma sentiment_loop_spec tokens : ∀ st,
  st_positive (fold_left sentiment_step tokens st)
    = st_positive st + spec_positive_count tokens ∧
  st_negative (fold_left sentiment_step tokens st)
    = st_negative st + spec_negative_count tokens ∧
  ∃ infos, st_details (fold_left sentiment_step tokens st)
             = st_details st ++ infos ∧
           Forall2 detail_of tokens infos.
Proof.
  unfold spec_positive_count, spec_negative_count.
  induction tokens as [|token tokens IH]; intros st; simpl.
  - split; [lia|]. split; [lia|]. exists []. by rewrite app_nil_r.
  - destruct (IH (sentiment_step st token)) as (Hp & Hn & infos & Hd & Hall).
    destruct (sentiment_step_spec st token) as (Hp1 & Hn1 & info & Hd1 & Hinfo).
    rewrite Hp, Hn, Hd, Hp1, Hn1, Hd1, !filter_cons. unfold vote.
    split; [|split].
    + destruct (decide (spec_votes_positive token)); simpl; lia.
    + destruct (decide (spec_votes_negative token)); simpl; lia.
    + exists (info :: infos). rewrite <- app_assoc. split; [done|].
      by constructor.
Qed.

Lemma choose_label_spec p n :
  choose_label p n ∈ sentiment_labels ∧
  (choose_label p n = u "Positive" ↔ n < p) ∧
  (choose_label p n = u "Negative" ↔ p < n) ∧
  (choose_label p n = u "Neutral" ↔ p = n).
Proof.
  unfold choose_label, sentiment_labels.
  destruct (n <? p) eqn:E1; [apply Nat.ltb_lt in E1|apply Nat.ltb_ge in E1].
  - split; [by left|]. repeat split; try done; try lia; by intros [=].
  - destruct (p <? n) eqn:E2; [apply Nat.ltb_lt in E2|apply Nat.ltb_ge in E2].
    + split; [right; by left|]. repeat split; try done; try lia; by intros [=].
    + split; [right; right; by left|].
      repeat split; try done; try lia; by intros [=].
Qed.

(** ** The tokenizer on ASCII text *)

Lemma lower_ascii text :
  forallb is_ascii text = true → lower text = map ascii_lower text.
Proof. intros H. unfold lower. by rewrite H. Qed.

Lemma is_token_char_lower c :
  is_token_char c = true → is_ascii c = true ∧ ascii_lower c = c.
Proof.
  unfold is_token_char, is_ascii, ascii_lower, in_range, char_in.
  rewrite !orb_true_iff, !andb_true_iff, !N.leb_le, bool_decide_eq_true.
  intros [[[H1 H2]|[H1 H2]]|H].
  - split; [apply N.ltb_lt; lia|].
    destruct ((65 <=? c)%N && (c <=? 90)%N) eqn:E; [|done].
    apply andb_true_iff in E as [_ E%N.leb_le]. lia.
  - split; [apply N.ltb_lt; lia|].
    destruct ((65 <=? c)%N && (c <=? 90)%N) eqn:E; [|done].
    apply andb_true_iff in E as [E%N.leb_le _]. lia.
  - apply list_elem_of_In in H. vm_compute in H.
    repeat (destruct H as [<-|H]; [by vm_compute|]). done.
Qed.

(** A token of word-and-censor characters is its own lower-case form. *)
Lemma lower_token token :
  Forall (λ c, is_token_char c = true) token → lower token = token.
Proof.
  intros H. rewrite lower_ascii.
  - induction H as [|c l Hc _ IH]; simpl; [done|].
    rewrite IH. by destruct (is_token_char_lower c Hc) as [_ ->].
  - apply forallb_forall. intros c Hc%list_elem_of_In.
    rewrite Forall_forall in H. by destruct (is_token_char_lower c (H c Hc)).
Qed.

Lemma lstrip_spaces text :
  Forall (λ c, isspace c = true) text → lstrip text = [].
Proof. induction 1 as [|c l Hc _ IH]; simpl; [done|]. by rewrite Hc. Qed.

Lemma ascii_isspace_facts c :
  ascii_isspace c = true →
  is_ascii c = true ∧ ascii_lower c = c ∧ isspace c = true.
Proof.
  intros H. assert (Ha : is_ascii c = true).
  { revert H. unfold ascii_isspace, is_ascii, in_range.
    rewrite !orb_true_iff, !andb_true_iff, !N.leb_le, N.ltb_lt. lia. }
  split; [done|]. split.
  - revert H. unfold ascii_isspace, ascii_lower, in_range.
    rewrite !orb_true_iff, !andb_true_iff, !N.leb_le. intros H.
    destruct ((65 <=? c)%N && (c <=? 90)%N) eqn:E; [|done].
    apply andb_true_iff in E as [E%N.leb_le _]. lia.
  - unfold isspace. by rewrite Ha.
Qed.

Lemma preprocess_whitespace text :
  Forall (λ c, ascii_isspace c = true) text → preprocess text = [].
Proof.
  intros H. unfold preprocess.
  assert (Hlow : lower text = text).
  { rewrite lower_ascii.
    - induction H as [|c l Hc _ IH]; simpl; [done|].
      rewrite IH. by destruct (ascii_isspace_facts c Hc) as (_ & -> & _).
    - apply forallb_forall. intros c Hc%list_elem_of_In.
      rewrite Forall_forall in H. by destruct (ascii_isspace_facts c (H c Hc)). }
  rewrite Hlow. unfold strip. rewrite (lstrip_spaces text); [done|].
  eapply Forall_impl; [exact H|]. intros c Hc.
  by destruct (ascii_isspace_facts c Hc) as (_ & _ & ?).
Qed.

Lemma preprocess_only_stopwords text :
  Forall (λ t, t ∈ stopwords ∧ (t ∉ positive_words) ∧ t ∉ negative_words)
         (findall_tokens [] (strip (lower text))) →
  preprocess text = [].
Proof.
  intros H. unfold preprocess.
  induction H as [|t l (Hs & Hp & Hn) _ IH]; [done|].
  rewrite filter_cons, decide_False; [done|].
  unfold keep_token, str_in_set.
  rewrite (bool_decide_true _ Hs), (bool_decide_false _ Hp),
    (bool_decide_false _ Hn). done.
Qed.

(** ** Lengths of the specified spellings *)

Lemma spec_pieces_length pieces middle :
  Forall2 spec_piece pieces middle → length middle ≤ length (concat pieces).
Proof.
  induction 1 as [|piece ch pieces middle Hp _ IH]; simpl; [lia|].
  rewrite length_app.
  assert (1 ≤ length piece); [|lia].
  destruct Hp as [(c & -> & _)|[Hne _]]; [simpl; lia|].
  destruct piece; [done|simpl; lia].
Qed.

(** A spelling as the specification words it is never shorter than the
    word. *)
Lemma spec_spelling_length word token :
  spec_obfuscated_spelling word token → length word ≤ length token.
Proof.
  intros (first & middle & last & c1 & body & filler2 & c2
          & -> & -> & _ & _ & _ & filler1 & pieces & -> & _ & Hp).
  apply spec_pieces_length in Hp. simpl. rewrite !length_app. simpl. lia.
Qed.

(** ** The result record *)

Lemma is_abusive_tokens_cases tokens debug :
  (tokens = [] ∧
   is_abusive_tokens tokens debug
     = mkResult (u "Please give meaningful feedback") (SentStr (u "")) None None) ∨
  (tokens ≠ [] ∧ abusive_loop tokens tokens = true ∧
   is_abusive_tokens tokens debug
     = mkResult (u "Abusive") (SentStr (u "")) None None) ∨
  (tokens ≠ [] ∧ abusive_loop tokens tokens = false ∧ debug = false ∧
   ∃ lbl, lbl ∈ sentiment_labels ∧
     is_abusive_tokens tokens debug = mkResult (u "Clean") (SentStr lbl) None None) ∨
  (tokens ≠ [] ∧ abusive_loop tokens tokens = false ∧ debug = true ∧
   ∃ rep, label rep ∈ sentiment_labels ∧
     is_abusive_tokens tokens debug
       = mkResult (u "Clean") (SentDict rep) (Some tokens) (Some rep)).
Proof.
  unfold is_abusive_tokens. destruct tokens as [|t ts]; [by left|].
  right. destruct (abusive_loop (t :: ts) (t :: ts)); [by left|].
  right. unfold analyze_sentiment. destruct debug.
  - right. split; [done|]. split; [done|]. split; [done|].
    eexists. split; [|done]. apply choose_label_spec.
  - left. split; [done|]. split; [done|]. split; [done|].
    eexists. split; [|done]. apply choose_label_spec.
Qed.

(** The abusive verdict is reached exactly when some token triggers it. *)
Lemma abusive_iff_triggers text debug :
  classification (is_abusive text debug) = u "Abusive"
  ↔ ∃ token, token ∈ preprocess text ∧ triggers (preprocess text) token.
Proof.
  unfold is_abusive. rewrite classification_is_abusive_tokens.
  rewrite <- abusive_loop_spec.
  destruct (preprocess text) as [|t ts]; [done|].
  by destruct (abusive_loop (t :: ts) (t :: ts)).
Qed.

(** * Claims *)

(** C1 (as amended). For a word of at least two characters, the compiled
    pattern fully matches a token exactly when the token is: a character
    matching the word's first character; then either nothing, or optional
    filler followed by, for each middle character of the word in order, a
    non-empty run of characters each of which is that middle character or
    an obfuscation symbol; then optional filler; then a character matching
    the word's last character. Every spelling the specification describes
    is matched. *)
Theorem C1_pattern_matches_iff_language (word token : str) :
  2 ≤ length word →
  (pattern_matches word token = true ↔ pattern_language word token) ∧
  (spec_obfuscated_spelling word token → pattern_matches word token = true).
Proof.
  intros Hlen. split; [by apply pattern_matches_language|].
  intros H. apply pattern_matches_language; [done|].
  by apply spec_spelling_in_language.
Qed.

(** C2 (as amended). The trie prefix lookup of the classifier receives the
    raw token: the text is classified "Abusive" exactly when some token of
    it is not a safe word and either has, as it stands, an abusive word as
    a prefix, or fully matches an obfuscation pattern, or the middle-finger
    emoji is among the tokens. *)
Theorem C2_trie_lookup_on_raw_token (text : str) (debug : bool) :
  classification (is_abusive text debug) = u "Abusive"
  ↔ ∃ token, token ∈ preprocess text ∧ (token ∉ safe_words) ∧
      (search_prefix trie token = true ∨
       (∃ pattern, pattern ∈ patterns ∧ fullmatch pattern token = true) ∨
       MIDDLE_FINGER ∈ preprocess text).
Proof.
  apply abusive_iff_triggers.
Qed.

(** C3. For every list of inserted words and every token,
    [search_prefix] returns true exactly when some inserted non-empty word
    is a prefix of the token. After inserting "chut", the query "chutiya"
    returns true; with the program's abusive-word list, the query "ch"
    returns false, and indeed no entry of the list is a prefix of "ch". *)
Theorem C3_search_prefix_iff_inserted_prefix :
  (∀ (words : list str) (token : str),
     search_prefix (build_trie words) token = true
     ↔ ∃ w, w ∈ words ∧ w ≠ [] ∧ w `prefix_of` token) ∧
  search_prefix (insert new_trie (u "chut")) (u "chutiya") = true ∧
  search_prefix trie (u "ch") = false ∧
  Forall (λ w, ¬ w `prefix_of` u "ch") abusive_words.
Proof.
  split; [|split; [by vm_compute|split; [by vm_compute|]]].
  - intros words token. unfold search_prefix.
    rewrite search_prefix_from_spec. split.
    + intros (w & Hne & Hpre & Hst). exists w.
      split; [by apply stored_build_trie|done].
    + intros (w & Hin & Hne & Hpre). exists w.
      split; [done|]. split; [done|].
      by apply stored_build_trie.
  - apply (bool_decide_unpack _). by vm_compute.
Qed.

(** C4. For every token list, with the normalized form of a token being its
    lower-cased text with repeated characters collapsed (the [norm] of the
    source, which is the collapsed token itself for a token of
    word-and-censor characters): the positive count is the number of tokens
    whose normalized form is in the positive set, or is in neither set and
    resembles some positive word with similarity at least 0.8; the negative
    count is the number of tokens whose normalized form is not in the
    positive set and is in the negative set or resembles some negative word;
    the debug entry of a token with an exact match holds no fuzzy match; and
    the label is "Positive" iff the positive count is the greater,
    "Negative" iff the negative count is the greater, "Neutral" iff they
    are equal. *)
Theorem C4_analyze_sentiment_counts (tokens : list str) :
  (∃ lbl infos,
     analyze_sentiment tokens false = SentStr lbl ∧
     analyze_sentiment tokens true
       = SentDict (mkReport lbl (spec_positive_count tokens)
                            (spec_negative_count tokens) infos) ∧
     Forall2 detail_of tokens infos ∧
     (lbl = u "Positive" ↔ spec_negative_count tokens < spec_positive_count tokens) ∧
     (lbl = u "Negative" ↔ spec_positive_count tokens < spec_negative_count tokens) ∧
     (lbl = u "Neutral" ↔ spec_positive_count tokens = spec_negative_count tokens)) ∧
  (∀ token, Forall (λ c, is_token_char c = true) token →
     normalized token = normalize_repeated_chars token).
Proof.
  split.
  - unfold analyze_sentiment.
    destruct (sentiment_loop_spec tokens (mkSentState 0 0 []))
      as (Hp & Hn & infos & Hd & Hall).
    simpl in Hp, Hn, Hd. rewrite Hp, Hn, Hd.
    eexists _, infos. split; [done|]. split; [done|]. split; [done|].
    apply choose_label_spec.
  - intros token H. unfold normalized. by rewrite lower_token.
Qed.

(** C5 (as amended). For every text and both debug settings the result is
    one of four records: "Please give meaningful feedback" or "Abusive",
    each with the empty string as sentiment and no debug field; "Clean"
    without debug, with one of the three labels as sentiment and no debug
    field; "Clean" with debug, where the sentiment field holds the
    scorer's breakdown record, whose label is one of the three labels, the
    same record is under [details] and the token sequence under [tokens]. *)
Theorem C5_result_shapes (text : str) (debug : bool) :
  is_abusive text debug
    = mkResult (u "Please give meaningful feedback") (SentStr (u "")) None None ∨
  is_abusive text debug = mkResult (u "Abusive") (SentStr (u "")) None None ∨
  (debug = false ∧ ∃ lbl, lbl ∈ sentiment_labels ∧
     is_abusive text debug = mkResult (u "Clean") (SentStr lbl) None None) ∨
  (debug = true ∧ ∃ rep, label rep ∈ sentiment_labels ∧
     is_abusive text debug
       = mkResult (u "Clean") (SentDict rep) (Some (preprocess text)) (Some rep)).
Proof.
  unfold is_abusive.
  destruct (is_abusive_tokens_cases (preprocess text) debug)
    as [(_ & H)|[(_ & _ & H)|[(_ & _ & Hd & H)|(_ & _ & Hd & H)]]]; auto.
Qed.

(** C6. A token equal to a safe-word entry is passed over by the loop,
    whatever the trie and the patterns say of it; a text all of whose tokens
    are safe words is classified "Clean"; in particular a text whose only
    token is "gandhiji" is classified "Clean", although the trie finds the
    abusive prefix "gand" in it. *)
Theorem C6_safe_words_exempt (text : str) (debug : bool) :
  (∀ all_tokens token rest, token ∈ safe_words →
     abusive_loop all_tokens (token :: rest) = abusive_loop all_tokens rest) ∧
  (preprocess text ≠ [] → Forall (λ token, token ∈ safe_words) (preprocess text) →
     classification (is_abusive text debug) = u "Clean") ∧
  (preprocess text = [u "gandhiji"] →
     classification (is_abusive text debug) = u "Clean") ∧
  u "gandhiji" ∈ safe_words ∧
  search_prefix trie (u "gandhiji") = true.
Proof.
  assert (Hall : ∀ tokens all_tokens,
            Forall (λ token, token ∈ safe_words) tokens →
            abusive_loop all_tokens tokens = false).
  { intros tokens all_tokens. induction 1 as [|t ts Ht _ IH]; [done|].
    by rewrite abusive_loop_safe. }
  split; [apply abusive_loop_safe|]. split; [|split].
  - intros Hne Hsafe. unfold is_abusive.
    rewrite classification_is_abusive_tokens, (Hall _ _ Hsafe).
    by destruct (preprocess text).
  - intros Heq. unfold is_abusive.
    rewrite classification_is_abusive_tokens, Heq, Hall; [done|].
    apply Forall_singleton. apply (bool_decide_unpack _). by vm_compute.
  - split; [|by vm_compute]. apply (bool_decide_unpack _). by vm_compute.
Qed.

(** C7. A text whose token sequence is empty is classified "Please give
    meaningful feedback", with the empty string as sentiment and no other
    field: the result is the same record whatever the word sets and the
    similarity measure are, nothing of the sentiment scorer enters it. The
    empty text, a text of ASCII whitespace only and a text whose tokens are
    all stopwords outside both sentiment sets have an empty token
    sequence. *)
Theorem C7_empty_tokens_meaningless (text : str) (debug : bool) :
  (preprocess text = [] →
     is_abusive text debug
       = mkResult (u "Please give meaningful feedback") (SentStr (u "")) None None) ∧
  preprocess (u "") = [] ∧
  (Forall (λ c, ascii_isspace c = true) text → preprocess text = []) ∧
  (Forall (λ t, t ∈ stopwords ∧ (t ∉ positive_words) ∧ t ∉ negative_words)
          (findall_tokens [] (strip (lower text))) →
     preprocess text = []).
Proof.
  split; [|split; [done|split]].
  - intros H. unfold is_abusive. by rewrite H.
  - apply preprocess_whitespace.
  - apply preprocess_only_stopwords.
Qed.

(** C8. [normalize_repeated_chars] keeps, scanning left to right, exactly the
    characters whose consecutive-repeat count is at most 2; hence its output
    never has the same character three times in a row and is a subsequence of
    the input (order preserved). It maps "goooood" to "good", "sooo" to "soo"
    and the empty string to itself. *)
Theorem C8_normalize_repeated_chars :
  (∀ word : str,
     normalize_repeated_chars word = keep_upto_two [] word ∧
     no_triple (normalize_repeated_chars word) = true ∧
     sublist (normalize_repeated_chars word) word) ∧
  normalize_repeated_chars (u "goooood") = u "good" ∧
  normalize_repeated_chars (u "sooo") = u "soo" ∧
  normalize_repeated_chars (u "") = u "".
Proof.
  split; [|by vm_compute].
  intros word. split; [apply normalize_keep|].
  rewrite normalize_keep. split.
  - apply (keep_upto_two_head word []).
  - apply keep_upto_two_sublist.
Qed.

(** C9. The abusive-word list holds the merged entry "bhenchodbhosdike"
    and no entry "bhosdike"; the trie finds no abusive prefix in the token
    "bhosdike", no obfuscation pattern fully matches it, and a token list
    made of it alone is classified "Clean". *)
Theorem C9_merged_entry_bhosdike :
  u "bhenchodbhosdike" ∈ abusive_words ∧
  (u "bhosdike" ∉ abusive_words) ∧
  search_prefix trie (u "bhosdike") = false ∧
  Forall (λ pattern, fullmatch pattern (u "bhosdike") = false) patterns ∧
  (∀ debug, classification (is_abusive_tokens [u "bhosdike"] debug) = u "Clean").
Proof.
  split; [apply (bool_decide_unpack _); by vm_compute|].
  split; [apply (bool_decide_unpack _); by vm_compute|].
  split; [by vm_compute|].
  assert (Hpat : existsb (λ pattern, fullmatch pattern (u "bhosdike")) patterns
                 = false) by (by vm_compute).
  split.
  - apply Forall_forall. intros pattern Hin.
    destruct (fullmatch pattern (u "bhosdike")) eqn:E; [|done].
    rewrite <- Hpat. symmetry. apply existsb_elem_of. eauto.
  - intros debug. rewrite classification_is_abusive_tokens.
    cbn [abusive_loop]. rewrite Hpat. by vm_compute.
Qed.

(** C10. The safe-word exemption is by equality with a whole entry:
    "gandhi" is not a safe word, "gand" is an abusive entry and the trie
    finds it as a prefix of "gandhi"; so every text whose token sequence
    contains "gandhi" is classified "Abusive". *)
Theorem C10_gandhi_is_abusive (text : str) (debug : bool) :
  u "gandhi" ∈ preprocess text →
  (u "gandhi" ∉ safe_words) ∧
  u "gand" ∈ abusive_words ∧
  search_prefix trie (u "gandhi") = true ∧
  classification (is_abusive text debug) = u "Abusive".
Proof.
  intros Hin.
  assert (Hns : u "gandhi" ∉ safe_words).
  { apply (bool_decide_unpack _). by vm_compute. }
  split; [done|]. split; [apply (bool_decide_unpack _); by vm_compute|].
  split; [by vm_compute|].
  apply abusive_iff_triggers. exists (u "gandhi"). split; [done|].
  split; [done|]. left. by vm_compute.
Qed.

(** * Further properties *)

(** ** The normalizer *)

Lemma no_triple_cons3 a b c l :
  no_triple (a :: b :: c :: l)
  = negb ((a =? b)%N && (b =? c)%N) && no_triple (b :: c :: l).
Proof. done. Qed.

Lemma no_triple_tail a l : no_triple (a :: l) = true → no_triple l = true.
Proof.
  destruct l as [|b [|c l]]; [done|done|].
  rewrite no_triple_cons3. by intros [_ ?]%andb_true_iff.
Qed.

(** A list that holds a character three times in a row. *)
Lemma no_triple_app_triple pre c post :
  no_triple (pre ++ c :: c :: c :: post) = false.
Proof.
  induction pre as [|a pre IH]; simpl app.
  - rewrite no_triple_cons3, !N.eqb_refl. done.
  - destruct (no_triple (a :: pre ++ c :: c :: c :: post)) eqn:E; [|done].
    apply no_triple_tail in E. congruence.
Qed.

Lemma run_before_two c seen :
  2 ≤ run_before c seen → ∃ seen', seen = c :: c :: seen'.
Proof.
  destruct seen as [|x [|y s]]; simpl; try lia.
  - destruct (decide (x = c)); lia.
  - destruct (decide (x = c)) as [->|]; [|lia].
    destruct (decide (y = c)) as [->|]; [|lia]. eauto.
Qed.

(** Nothing is dropped from a text that has no triple, whatever was
    scanned before it, as long as the two together have none. *)
Lemma keep_upto_two_no_triple rest : ∀ seen,
  no_triple (reverse seen ++ rest) = true → keep_upto_two seen rest = rest.
Proof.
  induction rest as [|c rest IH]; intros seen Hnt; cbn [keep_upto_two]; [done|].
  rewrite (IH (c :: seen)) by (by rewrite reverse_cons, <- app_assoc).
  unfold consecutive_repeat.
  destruct (S (run_before c seen) <=? 2) eqn:E; [done|].
  apply Nat.leb_gt in E.
  destruct (run_before_two c seen) as [seen' ->]; [lia|].
  rewrite !reverse_cons, <- !app_assoc in Hnt. simpl in Hnt.
  by rewrite no_triple_app_triple in Hnt.
Qed.

Lemma keep_upto_two_elem rest : ∀ seen c,
  c ∈ rest → c ∈ keep_upto_two seen rest ∨ 2 ≤ run_before c seen.
Proof.
  induction rest as [|d rest IH]; intros seen c Hin; cbn [keep_upto_two].
  { by apply elem_of_nil in Hin. }
  apply elem_of_cons in Hin as [->|Hin].
  - unfold consecutive_repeat.
    destruct (S (run_before d seen) <=? 2) eqn:E.
    + left. apply elem_of_app. left. by left.
    + apply Nat.leb_gt in E. right. lia.
  - destruct (decide (c = d)) as [->|Hne].
    + unfold consecutive_repeat.
      destruct (S (run_before d seen) <=? 2) eqn:E.
      * left. apply elem_of_app. left. by left.
      * apply Nat.leb_gt in E. right. lia.
    + destruct (IH (d :: seen) c Hin) as [H|H].
      * left. apply elem_of_app. by right.
      * simpl in H. rewrite decide_False in H by done. lia.
Qed.

Lemma normalize_idempotent (word : str) :
  normalize_repeated_chars (normalize_repeated_chars word)
  = normalize_repeated_chars word.
Proof.
  rewrite (normalize_keep (normalize_repeated_chars word)).
  apply keep_upto_two_no_triple. simpl.
  rewrite normalize_keep. apply (keep_upto_two_head word []).
Qed.

(** X1. Normalizing twice is the same as normalizing once. *)
Theorem X1_normalize_idempotent (word : str) :
  normalize_repeated_chars (normalize_repeated_chars word)
  = normalize_repeated_chars word.
Proof. apply normalize_idempotent. Qed.

(** X2. The normalizer leaves a word unchanged exactly when no character
    occurs three times in a row in it. *)
Theorem X2_normalize_fixed_iff_no_triple (word : str) :
  normalize_repeated_chars word = word ↔ no_triple word = true.
Proof.
  rewrite normalize_keep. split.
  - intros <-. apply (keep_upto_two_head word []).
  - intros H. by apply keep_upto_two_no_triple.
Qed.

(** X3. The normalized word is never longer than the word and has exactly
    the same characters: none is lost altogether and none is invented. *)
Theorem X3_normalize_same_characters (word : str) :
  length (normalize_repeated_chars word) ≤ length word ∧
  ∀ c, c ∈ normalize_repeated_chars word ↔ c ∈ word.
Proof.
  rewrite normalize_keep. split.
  - apply sublist_length, keep_upto_two_sublist.
  - intros c. split.
    + intros Hin. eapply elem_of_sublist; [exact Hin|]. apply keep_upto_two_sublist.
    + intros Hin. destruct (keep_upto_two_elem word [] c Hin) as [H|H]; [done|].
      simpl in H. lia.
Qed.

(** ** The trie *)

Lemma insert_from_cons node c word :
  insert_from node (c :: word)
  = mkTrieNode
      (<[c := insert_from (default new_node (children node !! c)) word]>
         (children node))
      (is_end_of_word node).
Proof. done. Qed.

Lemma insert_from_idempotent word : ∀ node,
  insert_from (insert_from node word) word = insert_from node word.
Proof.
  induction word as [|c word IH]; intros node; [done|].
  rewrite !insert_from_cons. cbn [children is_end_of_word].
  rewrite lookup_insert_eq, insert_insert_eq. cbn [from_option id].
  by rewrite IH.
Qed.

Lemma insert_from_commute a : ∀ b node,
  insert_from (insert_from node a) b = insert_from (insert_from node b) a.
Proof.
  induction a as [|c a IH]; intros [|d b] node; try done.
  rewrite !insert_from_cons. cbn [children is_end_of_word].
  destruct (decide (c = d)) as [->|Hne].
  - rewrite !lookup_insert_eq, !insert_insert_eq. cbn [from_option id].
    by rewrite IH.
  - rewrite !lookup_insert_ne by done.
    by rewrite insert_insert_ne.
Qed.

(** What one insertion changes in the answers of [search_prefix], for any
    node. *)
Lemma search_prefix_from_insert word : ∀ node token,
  search_prefix_from (insert_from node word) token
  = search_prefix_from node token
    || bool_decide (word ≠ [] ∧ word `prefix_of` token).
Proof.
  induction word as [|c word IH]; intros node token.
  { rewrite bool_decide_false by (by intros [? _]).
    rewrite orb_false_r. by destruct token. }
  destruct token as [|d token].
  { rewrite bool_decide_false; [done|]. intros [_ H].
    by apply prefix_nil_not in H. }
  rewrite insert_from_cons. cbn [search_prefix_from children].
  destruct (decide (c = d)) as [->|Hne].
  - rewrite lookup_insert_eq.
    rewrite (bool_decide_ext (d :: word ≠ [] ∧ d :: word `prefix_of` d :: token)
               (word `prefix_of` token)).
    2:{ split; [intros [_ H]; by apply prefix_cons_inv_2 in H|].
        intros H. split; [done|by apply prefix_cons]. }
    destruct word as [|e word].
    + cbn [insert_from is_end_of_word].
      rewrite (bool_decide_true ([] `prefix_of` token)) by apply prefix_nil.
      by rewrite orb_true_r.
    + assert (Hend : ∀ n, is_end_of_word (insert_from n (e :: word))
                          = is_end_of_word n) by done.
      rewrite Hend, IH.
      rewrite (bool_decide_ext (e :: word ≠ [] ∧ e :: word `prefix_of` token)
                 (e :: word `prefix_of` token)) by (split; [by intros [_ ?]|done]).
      destruct (children node !! d) as [child|]; cbn [from_option id].
      * by destruct (is_end_of_word child).
      * cbn [new_node is_end_of_word]. f_equal.
        destruct token as [|x token]; [done|].
        cbn [search_prefix_from children new_node]. by rewrite lookup_empty.
  - rewrite lookup_insert_ne by done.
    rewrite bool_decide_false; [by rewrite orb_false_r|].
    intros [_ H]. by apply prefix_cons_inv_1 in H.
Qed.

Lemma search_prefix_from_app token : ∀ node suffix,
  search_prefix_from node token = true →
  search_prefix_from node (token ++ suffix) = true.
Proof.
  induction token as [|c token IH]; intros node suffix; simpl; [done|].
  destruct (children node !! c) as [child|]; [|done].
  destruct (is_end_of_word child); [done|]. apply IH.
Qed.

(** X4. Inserting a word that is already in the trie changes nothing, so
    duplicate entries of a word list are harmless. *)
Theorem X4_insert_idempotent (t : Trie) (word : str) :
  insert (insert t word) word = insert t word.
Proof. unfold insert. simpl. by rewrite insert_from_idempotent. Qed.

(** X5. The order in which two words are inserted does not matter: both
    orders give the same trie. *)
Theorem X5_insert_commute (t : Trie) (a b : str) :
  insert (insert t a) b = insert (insert t b) a.
Proof. unfold insert. simpl. by rewrite insert_from_commute. Qed.

(** X6. For any trie, inserting a word adds to the tokens [search_prefix]
    accepts exactly those the word is a prefix of, when the word is not
    empty, and adds nothing when it is empty; no token accepted before is
    lost. *)
Theorem X6_search_prefix_after_insert (t : Trie) (word token : str) :
  search_prefix (insert t word) token
  = search_prefix t token || bool_decide (word ≠ [] ∧ word `prefix_of` token).
Proof. unfold search_prefix, insert. simpl. apply search_prefix_from_insert. Qed.

(** X7. For any trie, a token [search_prefix] accepts stays accepted
    however it is continued. *)
Theorem X7_search_prefix_extension (t : Trie) (token suffix : str) :
  search_prefix t token = true → search_prefix t (token ++ suffix) = true.
Proof. apply search_prefix_from_app. Qed.

(** ** The tokenizer *)

Lemma findall_tokens_shape text : ∀ run,
  Forall (λ c, is_token_char c = true) run →
  Forall token_shape (findall_tokens run text).
Proof.
  assert (Hflush : ∀ run, Forall (λ c, is_token_char c = true) run →
                          Forall token_shape (flush run)).
  { intros [|c run] H; [constructor|]. apply Forall_singleton. by left. }
  induction text as [|c text IH]; intros run Hrun; simpl; [by apply Hflush|].
  destruct (is_token_char c) eqn:Hc.
  - apply IH. apply Forall_app. split; [done|by apply Forall_singleton].
  - apply Forall_app. split; [by apply Hflush|].
    apply Forall_app. split; [|by apply IH].
    destruct (is_emoji c) eqn:He; [|constructor].
    apply Forall_singleton. right. eauto.
Qed.

Lemma findall_tokens_concat text : ∀ run,
  concat (findall_tokens run text) `sublist_of` run ++ text.
Proof.
  assert (Hflush : ∀ run, concat (flush run) = run).
  { intros [|c run]; simpl; [done|by rewrite app_nil_r]. }
  induction text as [|c text IH]; intros run; simpl.
  - by rewrite Hflush, app_nil_r.
  - destruct (is_token_char c).
    + specialize (IH (run ++ [c])). by rewrite <- app_assoc in IH.
    + rewrite !concat_app, Hflush. apply sublist_app; [done|].
      destruct (is_emoji c); simpl.
      * apply sublist_skip, (IH []).
      * apply sublist_cons, (IH []).
Qed.

Lemma sublist_concat (l1 l2 : list str) :
  l1 `sublist_of` l2 → concat l1 `sublist_of` concat l2.
Proof.
  induction 1 as [|x l1 l2 _ IH|x l1 l2 _ IH]; simpl; [done| |].
  - by apply sublist_app.
  - by apply sublist_inserts_l.
Qed.

Lemma lstrip_split text :
  ∃ ws, text = ws ++ lstrip text ∧ Forall (λ c, isspace c = true) ws.
Proof.
  induction text as [|c text (ws & Heq & Hws)]; simpl.
  - by exists [].
  - destruct (isspace c) eqn:Hc.
    + exists (c :: ws). simpl. rewrite <- Heq. split; [done|by constructor].
    + by exists [].
Qed.

(** What [strip] removes: whitespace in front and whitespace behind. *)
Lemma strip_split text :
  ∃ ws1 ws2, text = ws1 ++ strip text ++ ws2 ∧
             Forall (λ c, isspace c = true) ws1 ∧
             Forall (λ c, isspace c = true) ws2.
Proof.
  destruct (lstrip_split text) as (ws1 & H1 & Hws1).
  destruct (lstrip_split (reverse (lstrip text))) as (ws2 & H2 & Hws2).
  exists ws1, (reverse ws2). split; [|split; [done|]].
  - unfold strip. rewrite <- reverse_app, <- H2, reverse_involutive. done.
  - by apply Forall_reverse.
Qed.

Lemma findall_tokens_leading seps text :
  Forall (λ c, is_separator c = true) seps →
  findall_tokens [] (seps ++ text) = findall_tokens [] text.
Proof.
  induction 1 as [|c seps [Ht He]%andb_true_iff _ IH]; simpl; [done|].
  apply negb_true_iff in Ht, He. by rewrite Ht, He.
Qed.

Lemma findall_tokens_trailing seps :
  Forall (λ c, is_separator c = true) seps →
  ∀ text run, findall_tokens run (text ++ seps) = findall_tokens run text.
Proof.
  intros Hseps.
  assert (Hs : ∀ run, findall_tokens run seps = flush run).
  { induction Hseps as [|c seps [Ht He]%andb_true_iff _ IH]; intros run;
      simpl; [done|].
    apply negb_true_iff in Ht, He. rewrite Ht, He, IH. simpl.
    by rewrite app_nil_r. }
  induction text as [|c text IH]; intros run; simpl; [apply Hs|].
  by rewrite !IH.
Qed.

Lemma ascii_lower_ascii c : is_ascii c = true → is_ascii (ascii_lower c) = true.
Proof.
  unfold is_ascii, ascii_lower, in_range. intros H%N.ltb_lt.
  destruct ((65 <=? c)%N && (c <=? 90)%N) eqn:E; apply N.ltb_lt; [|done].
  apply andb_true_iff in E as [_ E%N.leb_le]. lia.
Qed.

(** ASCII whitespace is a separator. *)
Lemma ascii_space_separator c :
  is_ascii c = true → isspace c = true → is_separator c = true.
Proof.
  unfold isspace. intros -> Hs.
  unfold ascii_isspace, in_range in Hs.
  assert (Hc : (c ≤ 32)%N).
  { apply orb_true_iff in Hs as [[_ H%N.leb_le]%andb_true_iff
                                |[_ H%N.leb_le]%andb_true_iff]; lia. }
  unfold is_separator, is_token_char, is_emoji, in_range, char_in.
  apply andb_true_iff. split; apply negb_true_iff.
  - apply orb_false_iff. split; [apply orb_false_iff; split|].
    + apply andb_false_iff. left. apply N.leb_gt. lia.
    + apply andb_false_iff. left. apply N.leb_gt. lia.
    + apply bool_decide_eq_false. intros H%list_elem_of_In. vm_compute in H.
      repeat (destruct H as [<-|H]; [lia|]). done.
  - apply orb_false_iff. split; apply andb_false_iff; left; apply N.leb_gt; lia.
Qed.

Lemma forallb_is_ascii text :
  Forall (λ c, is_ascii c = true) text → forallb is_ascii text = true.
Proof.
  intros H. apply forallb_forall. intros c Hc%list_elem_of_In.
  by apply (proj1 (Forall_forall _ _) H).
Qed.

(** On ASCII text, stripping removes nothing the tokenizer would read. *)
Lemma preprocess_ascii text :
  Forall (λ c, is_ascii c = true) text →
  preprocess text
  = filter (λ t, keep_token t = true)
      (findall_tokens [] (map ascii_lower text)).
Proof.
  intros Hascii. unfold preprocess. f_equal.
  rewrite lower_ascii by (by apply forallb_is_ascii).
  assert (Hl : Forall (λ c, is_ascii c = true) (map ascii_lower text)).
  { apply Forall_map. eapply Forall_impl; [exact Hascii|].
    intros c. apply ascii_lower_ascii. }
  destruct (strip_split (map ascii_lower text)) as (ws1 & ws2 & Heq & H1 & H2).
  rewrite Heq in Hl. apply Forall_app in Hl as [Hl1 Hl].
  apply Forall_app in Hl as [_ Hl2].
  rewrite Heq at 2.
  assert (Hsep : ∀ ws, Forall (λ c, is_ascii c = true) ws →
            Forall (λ c, isspace c = true) ws →
            Forall (λ c, is_separator c = true) ws).
  { intros ws Ha Hs. apply Forall_forall. intros c Hc.
    apply ascii_space_separator.
    - by apply (proj1 (Forall_forall _ _) Ha).
    - by apply (proj1 (Forall_forall _ _) Hs). }
  rewrite findall_tokens_leading, findall_tokens_trailing; auto.
Qed.

(** X8. Every token the tokenizer returns is either a non-empty run of
    characters of [a-z0-9@#*$%&^_] or a single emoji character; in
    particular no token is empty and none holds a space, an upper-case
    letter or punctuation outside the kept set. *)
Theorem X8_preprocess_token_shape (text : str) :
  Forall token_shape (preprocess text).
Proof.
  unfold preprocess. apply Forall_forall.
  intros t [_ Ht]%list_elem_of_filter. revert t Ht. apply Forall_forall.
  by apply findall_tokens_shape.
Qed.

(** X9. The tokens, put end to end, are characters of the lower-cased
    text in their original order: the tokenizer invents no character and
    reorders none. *)
Theorem X9_preprocess_tokens_in_order (text : str) :
  concat (preprocess text) `sublist_of` lower text.
Proof.
  unfold preprocess.
  etrans; [apply sublist_concat, sublist_filter|].
  etrans; [apply (findall_tokens_concat _ [])|]. simpl.
  destruct (strip_split (lower text)) as (ws1 & ws2 & Heq & _).
  rewrite Heq at 2. by apply sublist_inserts_l, sublist_inserts_r.
Qed.

(** X10. On ASCII input the whole classification is case-insensitive: two
    texts that differ only in the case of their letters get the same
    result. *)
Theorem X10_is_abusive_case_insensitive (a b : str) (debug : bool) :
  Forall (λ c, is_ascii c = true) a →
  Forall (λ c, is_ascii c = true) b →
  map ascii_lower a = map ascii_lower b →
  is_abusive a debug = is_abusive b debug.
Proof.
  intros Ha Hb Heq. unfold is_abusive, preprocess.
  rewrite !lower_ascii by (by apply forallb_is_ascii). by rewrite Heq.
Qed.

(** X11. On ASCII input, whitespace put before and after a text does not
    change its result. *)
Theorem X11_is_abusive_ignores_padding (ws1 text ws2 : str) (debug : bool) :
  Forall (λ c, is_ascii c = true) text →
  Forall (λ c, ascii_isspace c = true) ws1 →
  Forall (λ c, ascii_isspace c = true) ws2 →
  is_abusive (ws1 ++ text ++ ws2) debug = is_abusive text debug.
Proof.
  intros Ht H1 H2. unfold is_abusive. f_equal.
  assert (Hsp : ∀ ws, Forall (λ c, ascii_isspace c = true) ws →
            Forall (λ c, is_ascii c = true) ws ∧ map ascii_lower ws = ws ∧
            Forall (λ c, is_separator c = true) ws).
  { induction 1 as [|c ws Hc _ (IH1 & IH2 & IH3)]; [done|].
    destruct (ascii_isspace_facts c Hc) as (Ha & Hl & Hs).
    split; [by constructor|]. split; [simpl; by rewrite Hl, IH2|].
    constructor; [by apply ascii_space_separator|done]. }
  destruct (Hsp ws1 H1) as (Ha1 & Hl1 & Hs1).
  destruct (Hsp ws2 H2) as (Ha2 & Hl2 & Hs2).
  rewrite !preprocess_ascii; [|done|].
  - rewrite !map_app, Hl1, Hl2.
    by rewrite findall_tokens_leading, findall_tokens_trailing.
  - apply Forall_app. split; [done|]. apply Forall_app. by split.
Qed.

(** ** The patterns *)

Lemma ci_eq_refl_ascii c : is_ascii c = true → ci_eq c c = true.
Proof. intros H. unfold ci_eq. rewrite H. simpl. apply N.eqb_refl. Qed.

(** The ends of a token matched by the pattern of a framed word. *)
Lemma pattern_matches_frame_ends first middle last token :
  pattern_matches (first :: middle ++ [last]) token = true →
  2 ≤ length token ∧
  ∃ c1 c2, head token = Some c1 ∧ list.last token = Some c2 ∧
           ci_eq c1 first = true ∧ ci_eq c2 last = true.
Proof.
  intros H. apply pattern_matches_language in H.
  2:{ simpl. rewrite length_app. simpl. lia. }
  destruct H as (first' & middle' & last' & c1 & body & filler2 & c2
                 & Hw & -> & Hc1 & Hc2 & _).
  injection Hw as <- Hw. apply app_inj_tail in Hw as [<- <-].
  split; [simpl; rewrite !length_app; simpl; lia|].
  exists c1, c2. split; [done|]. split; [|done].
  change (c1 :: body ++ filler2 ++ [c2]) with ((c1 :: body) ++ filler2 ++ [c2]).
  rewrite !app_assoc. apply last_snoc.
Qed.

(** X12. Compiling the patterns of a word list fails exactly when the list
    holds the empty word; when it succeeds there is one pattern per entry,
    duplicates included. *)
Theorem X12_patterns_one_per_word (words : list str) :
  (mapM create_obfuscation_regex words = None ↔ [] ∈ words) ∧
  (∀ compiled, mapM create_obfuscation_regex words = Some compiled →
     length compiled = length words).
Proof.
  split.
  - rewrite mapM_None, Exists_exists. split.
    + intros (w & Hin & Hw). by destruct w.
    + intros Hin. by exists [].
  - intros compiled H. symmetry. by eapply length_mapM.
Qed.

(** X13. Whatever the word, a token its pattern fully matches has at least
    two characters, begins with a character matching the word's first
    character and ends with one matching its last character; so a
    one-character entry is never matched by the token equal to it. *)
Theorem X13_pattern_match_ends (word token : str) :
  pattern_matches word token = true →
  2 ≤ length token ∧
  ∃ first last c1 c2,
    head word = Some first ∧ list.last word = Some last ∧
    head token = Some c1 ∧ list.last token = Some c2 ∧
    ci_eq c1 first = true ∧ ci_eq c2 last = true.
Proof.
  destruct word as [|a rest]; [done|].
  destruct (decide (rest = [])) as [->|Hne].
  - change (pattern_matches [a] token) with (pattern_matches (a :: [] ++ [a]) token).
    intros (Hlen & c1 & c2 & H1 & H2 & H3 & H4)%pattern_matches_frame_ends.
    split; [done|]. by exists a, a, c1, c2.
  - destruct (exists_last Hne) as (middle & last & ->).
    intros (Hlen & c1 & c2 & H1 & H2 & H3 & H4)%pattern_matches_frame_ends.
    split; [done|]. exists a, last, c1, c2. split; [done|].
    split; [|done]. rewrite app_comm_cons. apply last_snoc.
Qed.

(** X14. The pattern of an ASCII word of at least two characters fully
    matches the word itself, and also every token made of the word's first
    character, any run of non-word characters (the empty run included) and
    the word's last character: the middle of the word may be missing
    altogether. *)
Theorem X14_pattern_matches_self_and_gap (word filler : str) (first last : char) :
  Forall (λ c, is_ascii c = true) word →
  2 ≤ length word →
  head word = Some first → list.last word = Some last →
  Forall (λ c, is_filler c = true) filler →
  pattern_matches word word = true ∧
  pattern_matches word (first :: filler ++ [last]) = true.
Proof.
  intros Hascii Hlen Hhead Hlast Hfiller.
  destruct (word_frame word Hlen) as (first' & middle & last' & ->).
  injection Hhead as ->.
  rewrite app_comm_cons, last_snoc in Hlast. injection Hlast as ->.
  apply Forall_cons in Hascii as [Hf Hascii].
  apply Forall_app in Hascii as [Hm Hl]. apply Forall_inv in Hl.
  split; apply pattern_matches_language;
    try (simpl; rewrite length_app; simpl; lia).
  - exists first, middle, last, first, middle, [], last.
    split; [done|]. split; [done|].
    split; [by apply ci_eq_refl_ascii|]. split; [by apply ci_eq_refl_ascii|].
    split; [constructor|]. right. exists [], middle.
    split; [done|]. split; [constructor|].
    exists (map (λ c, [c]) middle). split.
    + clear. induction middle as [|c m IH]; simpl; [done|]. by rewrite <- IH.
    + clear -Hm. induction Hm as [|c m Hc _ IH]; simpl; constructor; [|done].
      split; [done|]. apply Forall_singleton. left. by apply ci_eq_refl_ascii.
  - exists first, middle, last, first, [], filler, last.
    split; [done|]. split; [done|].
    split; [by apply ci_eq_refl_ascii|]. split; [by apply ci_eq_refl_ascii|].
    split; [done|]. by left.
Qed.

(** ** Fuzzy membership *)

Lemma any_similar_spec normalized_word word_list threshold :
  any_similar normalized_word word_list threshold = true
  ↔ ∃ w, w ∈ word_list ∧ (threshold <=? ratio normalized_word w)%float = true.
Proof.
  induction word_list as [|d l IH]; simpl.
  - split; [done|]. by intros (w & ?%elem_of_nil & _).
  - destruct (threshold <=? ratio normalized_word d)%float eqn:E.
    + split; [|done]. intros _. exists d. split; [by left|done].
    + rewrite IH. split.
      * intros (w & Hw & H). exists w. split; [by right|done].
      * intros (w & [->|Hw]%elem_of_cons & H); [congruence|eauto].
Qed.

(** X15. [is_similar_to_any] answers true exactly when the normalized word
    is in the list or some word of the list has similarity at least the
    threshold to it; so the order and the repetitions of the list do not
    matter, and on the empty list the answer is false. *)
Theorem X15_is_similar_to_any_iff (word : str) (word_list : list str)
    (threshold : float) :
  is_similar_to_any word word_list threshold = true
  ↔ normalize_repeated_chars word ∈ word_list ∨
    ∃ w, w ∈ word_list ∧
         (threshold <=? ratio (normalize_repeated_chars word) w)%float = true.
Proof.
  unfold is_similar_to_any.
  destruct (str_in_list (normalize_repeated_chars word) word_list) eqn:E.
  - apply str_in_list_spec in E. split; [by left|done].
  - rewrite any_similar_spec. split; [by right|].
    intros [H%str_in_list_spec|H]; [congruence|done].
Qed.

(** X16. [is_similar_to_any] gives the same answer on a word and on its
    normalized form. *)
Theorem X16_is_similar_to_any_normalized (word : str) (word_list : list str)
    (threshold : float) :
  is_similar_to_any (normalize_repeated_chars word) word_list threshold
  = is_similar_to_any word word_list threshold.
Proof. unfold is_similar_to_any. by rewrite normalize_idempotent. Qed.

(** ** The sentiment scorer *)

Lemma analyze_sentiment_label tokens :
  analyze_sentiment tokens false
  = SentStr (choose_label (spec_positive_count tokens) (spec_negative_count tokens)).
Proof.
  unfold analyze_sentiment.
  destruct (sentiment_loop_spec tokens (mkSentState 0 0 [])) as (Hp & Hn & _).
  simpl in Hp, Hn. by rewrite Hp, Hn.
Qed.

Lemma analyze_sentiment_report tokens :
  ∃ infos,
    analyze_sentiment tokens true
    = SentDict (mkReport
        (choose_label (spec_positive_count tokens) (spec_negative_count tokens))
        (spec_positive_count tokens) (spec_negative_count tokens) infos) ∧
    Forall2 detail_of tokens infos.
Proof.
  unfold analyze_sentiment.
  destruct (sentiment_loop_spec tokens (mkSentState 0 0 []))
    as (Hp & Hn & infos & Hd & Hall).
  simpl in Hp, Hn, Hd. rewrite Hp, Hn, Hd. by exists infos.
Qed.

(** An iteration adds to the state what it adds to the initial state. *)
Lemma sentiment_step_shift st token :
  sentiment_step st token
  = let d := sentiment_step (mkSentState 0 0 []) token in
    mkSentState (st_positive st + st_positive d)
                (st_negative st + st_negative d)
                (st_details st ++ st_details d).
Proof.
  unfold sentiment_step.
  destruct (str_in_set _ positive_words); cbn.
  { by rewrite Nat.add_1_r, Nat.add_0_r. }
  destruct (str_in_set _ negative_words); cbn.
  { by rewrite Nat.add_1_r, Nat.add_0_r. }
  destruct (fuzzy_matches _ positive_words), (fuzzy_matches _ negative_words);
    cbn; by rewrite ?Nat.add_1_r, ?Nat.add_0_r.
Qed.

Lemma sentiment_loop_shift tokens : ∀ st,
  fold_left sentiment_step tokens st
  = let d := fold_left sentiment_step tokens (mkSentState 0 0 []) in
    mkSentState (st_positive st + st_positive d)
                (st_negative st + st_negative d)
                (st_details st ++ st_details d).
Proof.
  induction tokens as [|token tokens IH]; intros st; cbn [fold_left].
  - cbn. rewrite !Nat.add_0_r, app_nil_r. by destruct st.
  - rewrite (IH (sentiment_step st token)),
      (IH (sentiment_step (mkSentState 0 0 []) token)).
    rewrite (sentiment_step_shift st token). cbn.
    by rewrite !Nat.add_assoc, <- !app_assoc.
Qed.

(** X17. In the debug report the entries of [token_details] are those of
    the tokens in order, one per token; neither count exceeds the number
    of tokens; and the label is the one returned without debug. *)
Theorem X17_report_bounds (tokens : list str) :
  ∃ rep,
    analyze_sentiment tokens true = SentDict rep ∧
    analyze_sentiment tokens false = SentStr (label rep) ∧
    map ti_token (token_details rep) = tokens ∧
    positive_count rep ≤ length tokens ∧
    negative_count rep ≤ length tokens.
Proof.
  destruct (analyze_sentiment_report tokens) as (infos & Hrep & Hall).
  eexists. split; [exact Hrep|]. cbn.
  split; [apply analyze_sentiment_label|]. split; [|split].
  - clear Hrep. induction Hall as [|t i ts infos' Hi _ IH]; cbn; [done|].
    destruct Hi as [-> _]. by rewrite IH.
  - apply length_filter.
  - apply length_filter.
Qed.

(** X18. Scoring is additive over concatenation: the counts of two token
    lists put together are the sums of their counts, and the debug entries
    are those of the first list followed by those of the second. *)
Theorem X18_report_of_concatenation (tokens1 tokens2 : list str) :
  ∃ r1 r2,
    analyze_sentiment tokens1 true = SentDict r1 ∧
    analyze_sentiment tokens2 true = SentDict r2 ∧
    analyze_sentiment (tokens1 ++ tokens2) true
    = SentDict (mkReport
        (choose_label (positive_count r1 + positive_count r2)
                      (negative_count r1 + negative_count r2))
        (positive_count r1 + positive_count r2)
        (negative_count r1 + negative_count r2)
        (token_details r1 ++ token_details r2)).
Proof.
  unfold analyze_sentiment. eexists _, _. split; [done|]. split; [done|].
  rewrite fold_left_app, sentiment_loop_shift. done.
Qed.

(** X19. The label does not depend on the order of the tokens. *)
Theorem X19_label_order_independent (tokens tokens' : list str) :
  tokens ≡ₚ tokens' →
  analyze_sentiment tokens false = analyze_sentiment tokens' false.
Proof.
  intros Hperm. rewrite !analyze_sentiment_label.
  unfold spec_positive_count, spec_negative_count. by rewrite Hperm.
Qed.

(** ** The classifier *)

Lemma abusive_words_nonempty : [] ∉ abusive_words.
Proof. apply (bool_decide_unpack _). by vm_compute. Qed.

(** The trie of the program answers for the word list. *)
Lemma trie_search_iff token :
  search_prefix trie token = true
  ↔ ∃ w, w ∈ abusive_words ∧ w `prefix_of` token.
Proof.
  unfold search_prefix, trie. rewrite search_prefix_from_spec. split.
  - intros (w & _ & Hpre & Hst). exists w.
    split; [by apply stored_build_trie|done].
  - intros (w & Hin & Hpre). exists w. split.
    + intros ->. by apply abusive_words_nonempty.
    + split; [done|by apply stored_build_trie].
Qed.

(** The compiled patterns answer for the word list. *)
Lemma patterns_match_iff token :
  (∃ pattern, pattern ∈ patterns ∧ fullmatch pattern token = true)
  ↔ ∃ w, w ∈ abusive_words ∧ pattern_matches w token = true.
Proof.
  pose proof patterns_compiled as H. apply mapM_Some in H.
  unfold pattern_matches.
  induction H as [|w p ws ps Hwp _ IH].
  - split; [intros (p & ?%elem_of_nil & _)|intros (w & ?%elem_of_nil & _)]; done.
  - split.
    + intros (q & [->|Hq]%elem_of_cons & Hm).
      * exists w. split; [by left|]. by rewrite Hwp.
      * destruct (proj1 IH) as (w' & Hw' & Hm'); [eauto|].
        exists w'. split; [by right|done].
    + intros (w' & [->|Hw']%elem_of_cons & Hm).
      * exists p. split; [by left|]. by rewrite Hwp in Hm.
      * destruct (proj2 IH) as (q & Hq & Hm'); [eauto|].
        exists q. split; [by right|done].
Qed.

Lemma middle_finger_not_safe : MIDDLE_FINGER ∉ safe_words.
Proof. apply (bool_decide_unpack _). by vm_compute. Qed.

Lemma findall_tokens_split a : ∀ run c b,
  is_separator c = true →
  findall_tokens run (a ++ c :: b) = findall_tokens run a ++ findall_tokens [] b.
Proof.
  induction a as [|x a IH]; intros run c b Hc; simpl.
  - apply andb_true_iff in Hc as [Ht%negb_true_iff He%negb_true_iff].
    by rewrite Ht, He.
  - destruct (is_token_char x); [by apply IH|].
    rewrite (IH [] c b Hc). by rewrite <- !app_assoc.
Qed.

(** X20. The text is classified "Abusive" exactly when some token that is
    not a safe word has an entry of the abusive-word list as a prefix, or
    is fully matched by the pattern of an entry, or when the middle-finger
    emoji is a token while some token is not a safe word. *)
Theorem X20_abusive_iff_word_list (text : str) (debug : bool) :
  classification (is_abusive text debug) = u "Abusive"
  ↔ ∃ token, token ∈ preprocess text ∧ (token ∉ safe_words) ∧
      ((∃ w, w ∈ abusive_words ∧ w `prefix_of` token) ∨
       (∃ w, w ∈ abusive_words ∧ pattern_matches w token = true) ∨
       MIDDLE_FINGER ∈ preprocess text).
Proof.
  rewrite abusive_iff_triggers. unfold triggers.
  split; intros (token & Hin & Hns & H); exists token;
    (split; [done|]); (split; [done|]).
  - by rewrite <- trie_search_iff, <- patterns_match_iff.
  - by rewrite trie_search_iff, patterns_match_iff.
Qed.

(** X21. The debug flag changes neither the classification nor the label:
    the label inside the debug dictionary is the sentiment returned without
    debug. *)
Theorem X21_debug_changes_no_verdict (text : str) :
  classification (is_abusive text true) = classification (is_abusive text false) ∧
  sentiment (is_abusive text false)
  = match sentiment (is_abusive text true) with
    | SentDict report => SentStr (label report)
    | SentStr s => SentStr s
    end.
Proof.
  unfold is_abusive. split.
  - by rewrite !classification_is_abusive_tokens.
  - unfold is_abusive_tokens. destruct (preprocess text) as [|t ts]; [done|].
    destruct (abusive_loop (t :: ts) (t :: ts)); [done|].
    by unfold analyze_sentiment.
Qed.

(** X22. A text with the middle-finger emoji among its tokens is
    classified "Abusive", whatever its other tokens are. *)
Theorem X22_middle_finger_is_abusive (text : str) (debug : bool) :
  MIDDLE_FINGER ∈ preprocess text →
  classification (is_abusive text debug) = u "Abusive".
Proof.
  intros Hin. apply abusive_iff_triggers. exists MIDDLE_FINGER.
  split; [done|]. split; [apply middle_finger_not_safe|]. by right; right.
Qed.

(** X23. The abusive verdict is monotone in the tokens: if every token of
    one text is a token of another and the first is classified "Abusive",
    so is the second. *)
Theorem X23_abusive_monotone (a b : str) (debug : bool) :
  (∀ token, token ∈ preprocess a → token ∈ preprocess b) →
  classification (is_abusive a debug) = u "Abusive" →
  classification (is_abusive b debug) = u "Abusive".
Proof.
  intros Hsub (token & Hin & Hns & H)%abusive_iff_triggers.
  apply abusive_iff_triggers. exists token. split; [by apply Hsub|].
  split; [done|]. destruct H as [H|[H|H]]; auto.
Qed.

(** X24. On ASCII input the tokenizer works piece by piece: the tokens of
    two texts joined by a character that separates tokens (a space, a
    comma, a full stop, ...) are the tokens of the first followed by the
    tokens of the second. *)
Theorem X24_preprocess_across_separator (a b : str) (c : char) :
  Forall (λ x, is_ascii x = true) a →
  Forall (λ x, is_ascii x = true) b →
  is_ascii c = true →
  is_separator (ascii_lower c) = true →
  preprocess (a ++ c :: b) = preprocess a ++ preprocess b.
Proof.
  intros Ha Hb Hc Hsep.
  rewrite !preprocess_ascii; [|done|done|].
  - rewrite map_app. simpl. by rewrite findall_tokens_split, filter_app.
  - apply Forall_app. split; [done|by constructor].
Qed.

(** ** The request handler *)

(** X25. A request whose JSON object has no "text" key is answered as the
    empty text: "Please give meaningful feedback" with an empty sentiment. *)
Theorem X25_check_feedback_missing_text (data : gmap str json_value) :
  data !! u "text" = None →
  check_feedback data
  = Some (mkResult (u "Please give meaningful feedback") (SentStr (u "")) None None).
Proof. intros H. unfold check_feedback. by rewrite H. Qed.


End Classifier.

(** * Concrete runs

    The model run on ASCII inputs, with empty or small word sets. *)

(** C1, at the word "fuck" and the token "f@ck". *)
Lemma C1_pattern_matches_iff_language_witness :
  2 ≤ length (u "fuck") ∧
  (pattern_matches caseless_tables (u "fuck") (u "f@ck") = true
   ↔ pattern_language caseless_tables (u "fuck") (u "f@ck")) ∧
  (spec_obfuscated_spelling caseless_tables (u "fuck") (u "f@ck")
   → pattern_matches caseless_tables (u "fuck") (u "f@ck") = true).
Proof.
  assert (H : 2 ≤ length (u "fuck")) by (vm_compute; lia).
  split; [exact H|].
  exact (C1_pattern_matches_iff_language caseless_tables (u "fuck") (u "f@ck") H).
Defined.

(** C1 as stated fails: the pattern compiled from "fuck" fully matches the
    token "fk", which drops the middle section, and the token "fuuck", which
    repeats a middle character; neither is a spelling in which each middle
    character appears as itself or as symbols in its place. *)
Lemma C1_counterexample_permissive_middle :
  (pattern_matches caseless_tables (u "fuck") (u "fk") = true ∧
   ¬ spec_obfuscated_spelling caseless_tables (u "fuck") (u "fk")) ∧
  (pattern_matches caseless_tables (u "fuck") (u "fuuck") = true ∧
   ¬ spec_obfuscated_spelling caseless_tables (u "fuck") (u "fuuck")).
Proof.
  assert (Hlen : 2 ≤ length (u "fuck")) by (vm_compute; lia).
  split; (split; [by vm_compute|]);
    intros H%spec_spelling_decide; [|done| |done]; by vm_compute in H.
Qed.

(** C2 as stated fails: on the token "gaaandu" the classifier queries the
    trie with the token as it stands and finds nothing, so the text is
    "Clean"; queried with the normalized form "gaandu" the trie finds the
    entry "gaand" and the loop of the specification returns the abusive
    verdict. *)
Lemma C2_counterexample_gaaandu :
  normalize_repeated_chars (u "gaaandu") = u "gaandu" ∧
  search_prefix trie (u "gaaandu") = false ∧
  search_prefix trie (normalize_repeated_chars (u "gaaandu")) = true ∧
  abusive_loop caseless_tables [u "gaaandu"] [u "gaaandu"] = false ∧
  spec_abusive_loop_normalized caseless_tables [u "gaaandu"] [u "gaaandu"] = true ∧
  is_abusive caseless_tables ∅ ∅ ∅ no_similarity (u "gaaandu") false
    = mkResult (u "Clean") (SentStr (u "Neutral")) None None.
Proof. by vm_compute. Qed.

(** C5 as stated fails: in debug mode the sentiment field of a clean text
    is the scorer's dictionary, not one of the three strings. *)
Lemma C5_counterexample_debug_sentiment :
  is_abusive caseless_tables ∅ {[ u "nice" ]} ∅ no_similarity (u "nice") true
    = mkResult (u "Clean")
        (SentDict (mkReport (u "Positive") 1 0
           [mkTokenInfo (u "nice") (u "nice") true false [] []]))
        (Some [u "nice"])
        (Some (mkReport (u "Positive") 1 0
           [mkTokenInfo (u "nice") (u "nice") true false [] []])) ∧
  ¬ spec_sentiment_field
      (is_abusive caseless_tables ∅ {[ u "nice" ]} ∅ no_similarity (u "nice") true).
Proof.
  assert (Hr : is_abusive caseless_tables ∅ {[ u "nice" ]} ∅ no_similarity
                 (u "nice") true
               = mkResult (u "Clean")
                   (SentDict (mkReport (u "Positive") 1 0
                      [mkTokenInfo (u "nice") (u "nice") true false [] []]))
                   (Some [u "nice"])
                   (Some (mkReport (u "Positive") 1 0
                      [mkTokenInfo (u "nice") (u "nice") true false [] []])))
    by (by vm_compute).
  split; [exact Hr|]. rewrite Hr.
  intros [[_ (lbl & _ & H)]|[[H|H] _]]; simpl in H; discriminate H.
Qed.

(** C6, at the text "Gandhiji!". *)
Lemma C6_safe_words_exempt_witness :
  preprocess caseless_tables ∅ ∅ ∅ (u "Gandhiji!") = [u "gandhiji"] ∧
  classification
    (is_abusive caseless_tables ∅ ∅ ∅ no_similarity (u "Gandhiji!") false)
  = u "Clean".
Proof.
  assert (H : preprocess caseless_tables ∅ ∅ ∅ (u "Gandhiji!") = [u "gandhiji"])
    by (vm_compute; reflexivity).
  split; [exact H|].
  exact (proj1 (proj2 (proj2
    (C6_safe_words_exempt caseless_tables ∅ ∅ ∅ no_similarity
       (u "Gandhiji!") false))) H).
Defined.

(** C7, at a text of three spaces. *)
Lemma C7_empty_tokens_meaningless_witness :
  preprocess caseless_tables ∅ ∅ ∅ (u "   ") = [] ∧
  is_abusive caseless_tables ∅ ∅ ∅ no_similarity (u "   ") false
    = mkResult (u "Please give meaningful feedback") (SentStr (u "")) None None.
Proof.
  assert (H : preprocess caseless_tables ∅ ∅ ∅ (u "   ") = [])
    by (vm_compute; reflexivity).
  split; [exact H|].
  exact (proj1 (C7_empty_tokens_meaningless caseless_tables ∅ ∅ ∅ no_similarity
                  (u "   ") false) H).
Defined.

(** C10, at the text "Gandhi said so". *)
Lemma C10_gandhi_is_abusive_witness :
  u "gandhi" ∈ preprocess caseless_tables ∅ ∅ ∅ (u "Gandhi said so") ∧
  classification
    (is_abusive caseless_tables ∅ ∅ ∅ no_similarity (u "Gandhi said so") false)
  = u "Abusive".
Proof.
  assert (H : u "gandhi" ∈ preprocess caseless_tables ∅ ∅ ∅ (u "Gandhi said so")).
  { vm_compute. apply list_elem_of_here. }
  split; [exact H|].
  exact (proj2 (proj2 (proj2
    (C10_gandhi_is_abusive caseless_tables ∅ ∅ ∅ no_similarity
       (u "Gandhi said so") false H)))).
Defined.

(** * Further properties: empty word sets and concrete runs *)

Lemma spec_positive_count_empty U ratio (tokens : list str) :
  spec_positive_count U ∅ ∅ ratio tokens = 0.
Proof.
  unfold spec_positive_count. induction tokens as [|t ts IH]; [done|].
  rewrite filter_cons, decide_False; [done|].
  intros [H|(_ & _ & w & H & _)]; by apply not_elem_of_empty in H.
Qed.

Lemma spec_negative_count_empty U ratio (tokens : list str) :
  spec_negative_count U ∅ ∅ ratio tokens = 0.
Proof.
  unfold spec_negative_count. induction tokens as [|t ts IH]; [done|].
  rewrite filter_cons, decide_False; [done|].
  intros [_ [H|(w & H & _)]]; by apply not_elem_of_empty in H.
Qed.

(** X27. With empty positive and negative word sets every token list is
    labelled "Neutral": the scorer runs on empty sets without complaint. *)
Theorem X27_no_words_always_neutral (U : unicode_tables)
    (ratio : str → str → float) (tokens : list str) :
  analyze_sentiment U ∅ ∅ ratio tokens false = SentStr (u "Neutral").
Proof.
  rewrite analyze_sentiment_label.
  by rewrite spec_positive_count_empty, spec_negative_count_empty.
Qed.

(** X7, on the program's trie: "chut" is accepted, so "chutiya" is. *)
Lemma X7_search_prefix_extension_witness :
  search_prefix trie (u "chut" ++ u "iya") = true.
Proof.
  apply (X7_search_prefix_extension trie (u "chut") (u "iya")).
  vm_compute. reflexivity.
Defined.

(** X10, on "HeLLo World" and "hello world". *)
Lemma X10_is_abusive_case_insensitive_witness :
  is_abusive caseless_tables ∅ ∅ ∅ no_similarity (u "HeLLo World") false
  = is_abusive caseless_tables ∅ ∅ ∅ no_similarity (u "hello world") false.
Proof.
  apply X10_is_abusive_case_insensitive.
  - apply (bool_decide_unpack _). vm_compute. exact I.
  - apply (bool_decide_unpack _). vm_compute. exact I.
  - vm_compute. reflexivity.
Defined.

(** X11, on "great!" between spaces. *)
Lemma X11_is_abusive_ignores_padding_witness :
  is_abusive caseless_tables ∅ ∅ ∅ no_similarity
    (u "  " ++ u "great!" ++ u "   ") false
  = is_abusive caseless_tables ∅ ∅ ∅ no_similarity (u "great!") false.
Proof.
  apply X11_is_abusive_ignores_padding.
  - apply (bool_decide_unpack _). vm_compute. exact I.
  - apply (bool_decide_unpack _). vm_compute. exact I.
  - apply (bool_decide_unpack _). vm_compute. exact I.
Defined.

(** X13, on the word "fuck" and the token "f@ck". *)
Lemma X13_pattern_match_ends_witness :
  2 ≤ length (u "f@ck") ∧
  ∃ first last c1 c2,
    head (u "fuck") = Some first ∧ list.last (u "fuck") = Some last ∧
    head (u "f@ck") = Some c1 ∧ list.last (u "f@ck") = Some c2 ∧
    ci_eq caseless_tables c1 first = true ∧ ci_eq caseless_tables c2 last = true.
Proof.
  apply (X13_pattern_match_ends caseless_tables (u "fuck") (u "f@ck")).
  vm_compute. reflexivity.
Defined.

(** X14, on the word "fuck" with the gap "--". *)
Lemma X14_pattern_matches_self_and_gap_witness :
  pattern_matches caseless_tables (u "fuck") (u "fuck") = true ∧
  pattern_matches caseless_tables (u "fuck") (102%N :: u "--" ++ [107%N]) = true.
Proof.
  apply X14_pattern_matches_self_and_gap.
  - apply (bool_decide_unpack _). vm_compute. exact I.
  - vm_compute. lia.
  - vm_compute. reflexivity.
  - vm_compute. reflexivity.
  - apply (bool_decide_unpack _). vm_compute. exact I.
Defined.

(** X19, on two tokens swapped. *)
Lemma X19_label_order_independent_witness :
  analyze_sentiment caseless_tables {[ u "good" ]} {[ u "bad" ]} no_similarity
    [u "good"; u "bad"] false
  = analyze_sentiment caseless_tables {[ u "good" ]} {[ u "bad" ]} no_similarity
    [u "bad"; u "good"] false.
Proof.
  apply X19_label_order_independent. apply perm_swap.
Defined.

(** X22, on a text made of a safe word and the emoji. *)
Lemma X22_middle_finger_is_abusive_witness :
  classification
    (is_abusive caseless_tables ∅ ∅ ∅ no_similarity
       (u "gandhiji " ++ MIDDLE_FINGER) false)
  = u "Abusive".
Proof.
  apply X22_middle_finger_is_abusive.
  vm_compute. apply list_elem_of_further, list_elem_of_here.
Defined.

(** X23, on "fuck" and "what the fuck". *)
Lemma X23_abusive_monotone_witness :
  classification
    (is_abusive caseless_tables ∅ ∅ ∅ no_similarity (u "what the fuck") false)
  = u "Abusive".
Proof.
  apply (X23_abusive_monotone caseless_tables ∅ ∅ ∅ no_similarity (u "fuck")).
  - intros token. vm_compute.
    intros ->%list_elem_of_singleton.
    apply list_elem_of_further, list_elem_of_further, list_elem_of_here.
  - vm_compute. reflexivity.
Defined.

(** X24, on "nice" and "work" joined by a comma. *)
Lemma X24_preprocess_across_separator_witness :
  preprocess caseless_tables ∅ ∅ ∅ (u "nice" ++ 44%N :: u "work")
  = preprocess caseless_tables ∅ ∅ ∅ (u "nice")
    ++ preprocess caseless_tables ∅ ∅ ∅ (u "work").
Proof.
  apply X24_preprocess_across_separator.
  - apply (bool_decide_unpack _). vm_compute. exact I.
  - apply (bool_decide_unpack _). vm_compute. exact I.
  - vm_compute. reflexivity.
  - vm_compute. reflexivity.
Defined.

(** X25, on the empty JSON object. *)
Lemma X25_check_feedback_missing_text_witness :
  check_feedback caseless_tables ∅ ∅ ∅ no_similarity ∅
  = Some (mkResult (u "Please give meaningful feedback") (SentStr (u "")) None None).
Proof.
  apply X25_check_feedback_missing_text. apply lookup_empty.
Defined.
